(** * authdelegate: the dispatcher and the configuration validator

    A shallow embedding of [delegate.go] (the request dispatcher),
    [options.go] (the configuration validator) and [main.go] (the
    process) of 18F/authdelegate, followed by the properties that the
    design document states and by further properties of the code.

    Go packages are rendered as modules ([url], [http], [httputil]);
    what the Go runtime and the operating system decide (URL parsing,
    file status, JSON decoding, the order in which [range] visits a map,
    header-key canonicalisation, cookie parsing) is gathered in the class
    [GoRuntime], over which every definition and theorem is generic. *)

From Stdlib Require Import ZArith Lia Ascii.
From stdpp Require Import base option list gmap strings fin_maps sorting pretty.

Local Open Scope string_scope.
Local Open Scope list_scope.

(** ** Panics

    A Go function either returns or panics (here: only by dereferencing a
    nil pointer or indexing out of range). *)

Inductive go (A : Type) : Type :=
| Ret (a : A)
| Panic (reason : string).
Arguments Ret {A} a.
Arguments Panic {A} reason.

#[global] Instance go_ret : MRet go := fun A a => Ret a.
#[global] Instance go_bind : MBind go := fun A B k m =>
  match m with
  | Ret a => k a
  | Panic reason => Panic reason
  end.

Definition nil_dereference : string :=
  "invalid memory address or nil pointer dereference".
Definition index_out_of_range : string := "index out of range".

(** ** Strings *)

Definition str_ne (a b : string) : bool := negb (String.eqb a b).
Infix "!=?" := str_ne (at level 70, no associativity).

Definition newline : string := String (Ascii.ascii_of_nat 10) "".

(** [strings.Join] *)
Fixpoint strings_Join (elems : list string) (sep : string) : string :=
  match elems with
  | [] => ""
  | [a] => a
  | a :: rest => a +:+ sep +:+ strings_Join rest sep
  end.

(** [strings.HasPrefix], [strings.HasSuffix] *)
Definition strings_HasPrefix (s prefix : string) : bool := String.prefix prefix s.
Definition strings_HasSuffix (s suffix : string) : bool :=
  String.prefix (String.rev suffix) (String.rev s).

(** [strings.Contains] *)
Fixpoint strings_Contains (s substr : string) : bool :=
  String.prefix substr s ||
  match s with
  | EmptyString => false
  | String _ rest => strings_Contains rest substr
  end.

(** ** Package [net/url] *)

Module url.
(** The fields of [url.URL] the program reads or writes. *)
Record URL : Type := mkURL {
  Scheme : string;
  Host : string;
  Path : string;
  RawQuery : string;
}.
End url.

(** ** Package [net/http] *)

Module http.
(** A header maps canonical keys to the values received, in order. *)
Abbreviation Header := (gmap string (list string)).

Record Cookie : Type := mkCookie { Name : string; Value : string }.

Inductive error : Type := ErrNoCookie.

Record Request : Type := mkRequest {
  Method : string;
  URL : url.URL;
  Header_ : Header;
  Body : string;
  RequestURI : string;
}.

Definition set_Header (h : Header) (req : Request) : Request :=
  mkRequest (Method req) (URL req) h (Body req) (RequestURI req).
Definition set_URL (u : url.URL) (req : Request) : Request :=
  mkRequest (Method req) u (Header_ req) (Body req) (RequestURI req).

Definition StatusUnauthorized : Z := 401.

(** What a handler does with a request: it answers by itself through
    [http.Error], or it sends a request upstream and relays the
    answer. *)
Inductive Served : Type :=
| Error (error : string) (code : Z)
| RoundTrip (outreq : Request).
End http.

(** ** Package [net/http/httputil] *)

Module httputil.
(** A reverse proxy is its [Director], which rewrites the copy of the
    inbound request that is about to be sent. *)
Record ReverseProxy : Type := mkReverseProxy {
  Director : http.Request -> http.Request;
}.

Definition singleJoiningSlash (a b : string) : string :=
  let aslash := strings_HasSuffix a "/" in
  let bslash := strings_HasPrefix b "/" in
  if aslash && bslash then a +:+ String.substring 1 (String.length b - 1) b
  else if negb aslash && negb bslash then a +:+ "/" +:+ b
  else a +:+ b.

(** The director of [NewSingleHostReverseProxy]: scheme and host of the
    target, the two paths joined, the two queries joined. *)
Definition singleHostDirector (target : url.URL) (req : http.Request)
  : http.Request :=
  let targetQuery := url.RawQuery target in
  let u := http.URL req in
  let path := singleJoiningSlash (url.Path target) (url.Path u) in
  let query :=
    if String.eqb targetQuery "" || String.eqb (url.RawQuery u) ""
    then targetQuery +:+ url.RawQuery u
    else targetQuery +:+ "&" +:+ url.RawQuery u in
  http.set_URL (url.mkURL (url.Scheme target) (url.Host target) path query) req.

(** [NewSingleHostReverseProxy], as in the Go releases of the time of
    the program: it reads [target.RawQuery] before it builds the
    director, so a nil target panics at once. Later releases read the
    target when the first request is served. The properties below are
    about targets that are not nil. *)
Definition NewSingleHostReverseProxy (target : option url.URL)
  : go ReverseProxy :=
  match target with
  | None => Panic nil_dereference
  | Some t => Ret (mkReverseProxy (singleHostDirector t))
  end.

(** [ReverseProxy.ServeHTTP]: the director runs on a copy of the
    request, which then goes upstream; the answer is relayed. The
    outcome [RoundTrip] holds the request as the director leaves it.
    What the library does to the copy after the director is left out: it
    removes the hop-by-hop headers (Connection, Keep-Alive, Upgrade and
    the like, and those that Connection lists), adds the client address
    to X-Forwarded-For, and sets an empty User-Agent when there is none.
    The properties below read the method, the URL, the body and the
    header X-Original-URI as the director leaves them; they say nothing
    of the other headers. *)
Definition ServeHTTP (p : ReverseProxy) (req : http.Request) : http.Served :=
  http.RoundTrip (Director p req).
End httputil.

(** ** Package [os] *)

(** The four ways [os.Stat] matters to the validator: it returns a
    [FileInfo] (regular file or not), or an error that [os.IsNotExist]
    recognises, or one that [os.IsPermission] recognises, or another
    error. *)
Inductive stat_result : Type :=
| stat_info (isRegular : bool)
| stat_not_exist
| stat_permission
| stat_other_error.

(** ** options.go: the configuration

    [Upstreams] is a slice of pointers to upstreams. Its entries are
    taken to be distinct and not nil, as the JSON decoder allocates them
    for the objects of the "upstreams" array, and an upstream is passed
    by value: [validateUpstream], which stores the parsed URL through the
    pointer, returns the upstream it has updated. The counts of names
    are bounded by the number of upstreams and cannot overflow. *)

Record AuthDelegateUpstream : Type := mkUpstream {
  URL : string;
  HeaderName : string;
  CookieName : string;
  parsedURL : option url.URL;   (* a pointer: nil until validated *)
}.

Record AuthDelegateOptions : Type := mkOptions {
  Port : Z;
  SslCert : string;
  SslKey : string;
  Upstreams : list AuthDelegateUpstream;
}.

(** ** The runtime *)

Class GoRuntime : Type := {
  (** [url.Parse]: the parsed URL, or nil and an error text *)
  url_Parse : string -> url.URL + string;
  (** [os.Stat] *)
  os_Stat : string -> stat_result;
  (** [json.Unmarshal] into an [AuthDelegateOptions] *)
  json_Unmarshal : string -> AuthDelegateOptions + string;
  (** the entries of a map in the order a [range] statement visits them;
      Go leaves the order unspecified, and it may differ from one
      statement to the next (the first argument names the statement) and
      from one execution of a statement to the next: a runtime holds the
      orders of one execution of each statement *)
  map_range : string -> gmap string Z -> list (string * Z);
  map_range_perm : forall site m, map_range site m ≡ₚ map_to_list m;
  (** [textproto.CanonicalMIMEHeaderKey] *)
  CanonicalMIMEHeaderKey : string -> string;
  (** [http.readCookies]: the cookies of the Cookie header lines whose
      name is [filter] *)
  readCookies : http.Header -> string -> list http.Cookie;
}.

Section Program.
Context `{GoRuntime}.

(** [Header.Get]: the first value under the canonical key, or "" *)
Definition Header_Get (h : http.Header) (key : string) : string :=
  match h !! CanonicalMIMEHeaderKey key with
  | Some (v :: _) => v
  | _ => ""
  end.

(** [Header.Set]: the key now has this one value *)
Definition Header_Set (h : http.Header) (key value : string) : http.Header :=
  <[CanonicalMIMEHeaderKey key := [value]]> h.

(** [Request.Cookie] *)
Definition Request_Cookie (req : http.Request) (name : string)
  : http.Cookie + http.error :=
  match readCookies (http.Header_ req) name with
  | c :: _ => inl c
  | [] => inr http.ErrNoCookie
  end.

(** ** options.go: validation *)

(** The text of the error of [Validate], under the name the tests give
    it. *)
Definition optionErrors (msgs : list string) : string :=
  "Invalid options:" +:+ newline +:+ "  " +:+
  strings_Join msgs (newline +:+ "  ").

Definition validatePort (opts : AuthDelegateOptions) (msgs : list string)
  : list string :=
  if (Port opts <=? 0)%Z then
    msgs ++ ["port must be specified and greater than zero"]
  else msgs.

(** When [os.Stat] fails with an error that is neither "not exist" nor
    "permission", [info] is nil and [info.Mode()] panics. *)
Definition checkExistenceAndPermission (path optionName : string)
    (msgs : list string) : go (list string) :=
  match os_Stat path with
  | stat_not_exist => Ret (msgs ++ [optionName +:+ " does not exist: " +:+ path])
  | stat_permission =>
      Ret (msgs ++ [optionName +:+ " permission is denied: " +:+ path])
  | stat_other_error => Panic nil_dereference
  | stat_info isRegular =>
      if negb isRegular then
        Ret (msgs ++ [optionName +:+ " is not a regular file: " +:+ path])
      else Ret msgs
  end.

Definition validateSsl (opts : AuthDelegateOptions) (msgs : list string)
  : go (list string) :=
  let certSpecified := SslCert opts !=? "" in
  let keySpecified := SslKey opts !=? "" in
  if negb (certSpecified || keySpecified) then Ret msgs
  else
    let msgs :=
      if negb (certSpecified && keySpecified) then
        msgs ++ ["ssl-cert and ssl-key must both be specified, or neither must be"]
      else msgs in
    msgs ← (if certSpecified then
              checkExistenceAndPermission (SslCert opts) "ssl-cert" msgs
            else Ret msgs);
    if keySpecified then
      checkExistenceAndPermission (SslKey opts) "ssl-key" msgs
    else Ret msgs.

(** The first statement of [validateUpstream]: the URL is parsed, the
    result (nil on failure) is stored in the upstream, and a failure is
    recorded. *)
Definition validateUpstream_parse (upstream : AuthDelegateUpstream)
    (msgs : list string) : AuthDelegateUpstream * list string :=
  match url_Parse (URL upstream) with
  | inl parsed =>
      (mkUpstream (URL upstream) (HeaderName upstream) (CookieName upstream)
         (Some parsed), msgs)
  | inr err =>
      (mkUpstream (URL upstream) (HeaderName upstream) (CookieName upstream)
         None, msgs ++ ["upstream URL failed to parse" +:+ err])
  end.

Definition validateUpstream (upstream : AuthDelegateUpstream)
    (msgs : list string) : go (AuthDelegateUpstream * list string) :=
  let '(upstream, msgs) := validateUpstream_parse upstream msgs in
  match parsedURL upstream with
  | None => Panic nil_dereference
  | Some parsed =>
      let scheme := url.Scheme parsed in
      let msgs :=
        if String.eqb scheme "" then
          msgs ++ ["upstream scheme not specified: " +:+ URL upstream]
        else if negb (String.eqb scheme "http" || String.eqb scheme "https") then
          msgs ++ ["invalid upstream scheme: " +:+ URL upstream]
        else msgs in
      let msgs :=
        if (HeaderName upstream !=? "") && (CookieName upstream !=? "") then
          msgs ++ ["both header_name and cookie_name defined: " +:+ URL upstream]
        else msgs in
      Ret (upstream, msgs)
  end.

Definition validateNameCounts (category : string) (counts : gmap string Z)
    (msgs : list string) : list string :=
  let counts := delete "" counts in
  let repeatedNames :=
    (filter (λ entry, (1 < entry.2)%Z) (map_range category counts)).*1 in
  if negb (length repeatedNames =? 0)%nat then
    msgs ++ ["repeated " +:+ category +:+ ": " +:+ strings_Join repeatedNames ", "]
  else msgs.

Definition validateDefaultUpstreams (defaultUpstreams : list string)
    (lastUpstream : AuthDelegateUpstream) (msgs : list string) : list string :=
  let numDefaults := length defaultUpstreams in
  if (numDefaults =? 0)%nat then msgs
  else
    let lastDefault := default "" (defaultUpstreams !! (numDefaults - 1)%nat) in
    if (1 <? numDefaults)%nat then
      msgs ++ ["multiple upstreams without header_name or cookie_name"]
    else if lastDefault !=? URL lastUpstream then
      msgs ++ ["upstream without header_name or cookie_name not last in upstream list: "
               +:+ lastDefault]
    else msgs.

(** [counts[name]++] *)
Definition increment (name : string) (counts : gmap string Z) : gmap string Z :=
  <[name := (default 0 (counts !! name) + 1)%Z]> counts.

(** The variables of the loop of [validateUpstreams], with the upstreams
    already visited (their [parsedURL] now set). *)
Record scan : Type := mkScan {
  visited : list AuthDelegateUpstream;
  scan_msgs : list string;
  defaultUpstreams : list string;
  cookieNames : gmap string Z;
  headerNames : gmap string Z;
}.

Fixpoint validateUpstreams_loop (rest : list AuthDelegateUpstream) (st : scan)
  : go scan :=
  match rest with
  | [] => Ret st
  | current :: rest =>
      '(current, msgs) ← validateUpstream current (scan_msgs st);
      let defaults :=
        if String.eqb (HeaderName current) "" && String.eqb (CookieName current) ""
        then defaultUpstreams st ++ [URL current]
        else defaultUpstreams st in
      validateUpstreams_loop rest
        (mkScan (visited st ++ [current]) msgs defaults
           (increment (CookieName current) (cookieNames st))
           (increment (HeaderName current) (headerNames st)))
  end.

Definition validateUpstreams (opts : AuthDelegateOptions) (msgs : list string)
  : go (AuthDelegateOptions * list string) :=
  if (length (Upstreams opts) =? 0)%nat then
    Ret (opts, msgs ++ ["no upstreams defined"])
  else
    st ← validateUpstreams_loop (Upstreams opts) (mkScan [] msgs [] ∅ ∅);
    let msgs := validateNameCounts "cookie names" (cookieNames st) (scan_msgs st) in
    let msgs := validateNameCounts "header names" (headerNames st) msgs in
    match last (visited st) with
    | None => Panic index_out_of_range
    | Some lastUpstream =>
        Ret (mkOptions (Port opts) (SslCert opts) (SslKey opts) (visited st),
             validateDefaultUpstreams (defaultUpstreams st) lastUpstream msgs)
    end.

(** [Validate] returns the error (nil when there is no message); the
    options come back with the parsed URLs it stored in them. *)
Definition Validate (opts : AuthDelegateOptions)
  : go (AuthDelegateOptions * option string) :=
  let msgs := validatePort opts [] in
  msgs ← validateSsl opts msgs;
  '(opts, msgs) ← validateUpstreams opts msgs;
  Ret (opts,
       if negb (length msgs =? 0)%nat then Some (optionErrors msgs) else None).

Definition NewAuthDelegateOptionsFromJSON (config : string)
  : go (option AuthDelegateOptions * option string) :=
  match json_Unmarshal config with
  | inr err => Ret (None, Some ("JSON parsing failed: " +:+ err))
  | inl opts =>
      '(opts, err) ← Validate opts;
      match err with
      | Some e => Ret (None, Some e)
      | None => Ret (Some opts, None)
      end
  end.

(** ** delegate.go: the dispatcher *)

Record authDelegate : Type := mkAuthDelegate {
  headerName : string;
  cookieName : string;
  handler : httputil.ReverseProxy;
}.

Record authDelegateHandler : Type := mkHandler {
  upstreams : list authDelegate;
}.

Definition accepts (delegate : authDelegate) (req : http.Request) : bool :=
  if headerName delegate !=? "" then
    Header_Get (http.Header_ req) (headerName delegate) !=? ""
  else if cookieName delegate !=? "" then
    match Request_Cookie req (cookieName delegate) with
    | inr http.ErrNoCookie => false
    | inl _ => true
    end
  else true.

(** The director installed by [newAuthDelegateReverseProxy]. The line
    written to the log is not part of the request and is left out. *)
Definition authDelegateDirector (director : http.Request -> http.Request)
    (url : url.URL) (req : http.Request) : http.Request :=
  let req := director req in
  let origURI := Header_Get (http.Header_ req) "X-Original-URI" in
  let req :=
    if String.eqb origURI "" then
      let origURI := http.RequestURI req in
      http.set_Header (Header_Set (http.Header_ req) "X-Original-URI" origURI) req
    else req in
  http.set_URL url req.

Definition newAuthDelegateReverseProxy (url : option url.URL)
  : go httputil.ReverseProxy :=
  proxy ← httputil.NewSingleHostReverseProxy url;
  let director := httputil.Director proxy in
  match url with
  | None => Panic nil_dereference
  | Some u => Ret (httputil.mkReverseProxy (authDelegateDirector director u))
  end.

Fixpoint NewAuthDelegate_range (rest : list AuthDelegateUpstream)
    (handler : authDelegateHandler) : go authDelegateHandler :=
  match rest with
  | [] => Ret handler
  | upstream :: rest =>
      proxy ← newAuthDelegateReverseProxy (parsedURL upstream);
      NewAuthDelegate_range rest
        (mkHandler (upstreams handler ++
           [mkAuthDelegate (HeaderName upstream) (CookieName upstream) proxy]))
  end.

Definition NewAuthDelegate (opts : AuthDelegateOptions) : go authDelegateHandler :=
  NewAuthDelegate_range (Upstreams opts) (mkHandler []).

Fixpoint ServeHTTP_range (rest : list authDelegate) (req : http.Request)
  : http.Served :=
  match rest with
  | [] => http.Error "unauthorized request" http.StatusUnauthorized
  | upstream :: rest =>
      if accepts upstream req then httputil.ServeHTTP (handler upstream) req
      else ServeHTTP_range rest req
  end.

Definition ServeHTTP (handler : authDelegateHandler) (req : http.Request)
  : http.Served :=
  ServeHTTP_range (upstreams handler) req.

(** ** Vocabulary of the properties *)

(** The request carries a header of this name (whatever its values). *)
Definition carries_header (req : http.Request) (name : string) : Prop :=
  is_Some (http.Header_ req !! CanonicalMIMEHeaderKey name).

(** The values the request carries under this name. *)
Definition header_values (req : http.Request) (name : string) : list string :=
  default [] (http.Header_ req !! CanonicalMIMEHeaderKey name).

(** The path of a URL, then "?" and its query when it has one: the
    request target of a request line in origin form. *)
Definition path_and_query (u : url.URL) : string :=
  url.Path u +:+
  (if String.eqb (url.RawQuery u) "" then "" else "?" +:+ url.RawQuery u).

(** The proxy that [newAuthDelegateReverseProxy] builds for a target. *)
Definition proxy_to (target : url.URL) : httputil.ReverseProxy :=
  httputil.mkReverseProxy
    (authDelegateDirector (httputil.singleHostDirector target) target).

(** The rule derived from an upstream: same names, a proxy to its parsed
    URL. *)
Definition rule_of (upstream : AuthDelegateUpstream) (delegate : authDelegate)
  : Prop :=
  headerName delegate = HeaderName upstream ∧
  cookieName delegate = CookieName upstream ∧
  ∃ target, parsedURL upstream = Some target ∧ handler delegate = proxy_to target.

(** A default upstream has neither name. *)
Definition is_default (upstream : AuthDelegateUpstream) : Prop :=
  HeaderName upstream = "" ∧ CookieName upstream = "".

#[global] Instance is_default_dec (upstream : AuthDelegateUpstream)
  : Decision (is_default upstream) :=
  and_dec (decide (HeaderName upstream = "")) (decide (CookieName upstream = "")).

(** What a successful validation guarantees of an upstream. *)
Definition well_formed (upstream : AuthDelegateUpstream) : Prop :=
  (∃ parsed, parsedURL upstream = Some parsed ∧
             (url.Scheme parsed = "http" ∨ url.Scheme parsed = "https")) ∧
  (HeaderName upstream = "" ∨ CookieName upstream = "").

(** How often a name occurs in a list. *)
Definition occurrences (name : string) (names : list string) : nat :=
  length (filter (λ n, n = name) names).

(** The names that occur more than once in a list, the empty name apart. *)
Definition repeated_in (names : list string) (name : string) : Prop :=
  name ≠ "" ∧ (2 ≤ occurrences name names)%nat.

(** The upstream's URL parses. *)
Definition parses (upstream : AuthDelegateUpstream) : Prop :=
  ∃ parsed, url_Parse (URL upstream) = inl parsed.

(** The upstream after [validateUpstream] has stored its parsed URL. *)
Definition with_parsed (upstream : AuthDelegateUpstream) (parsed : url.URL)
  : AuthDelegateUpstream :=
  mkUpstream (URL upstream) (HeaderName upstream) (CookieName upstream)
    (Some parsed).

(** An upstream as the loop of [validateUpstreams] leaves it. *)
Definition validated_as (upstream validated : AuthDelegateUpstream) : Prop :=
  ∃ parsed, url_Parse (URL upstream) = inl parsed ∧
            validated = with_parsed upstream parsed.

(** The messages [validateUpstream] adds for an upstream whose URL parsed
    with this scheme. *)
Definition upstream_messages (upstream : AuthDelegateUpstream) (scheme : string)
  : list string :=
  (if String.eqb scheme "" then
     ["upstream scheme not specified: " +:+ URL upstream]
   else if negb (String.eqb scheme "http" || String.eqb scheme "https") then
     ["invalid upstream scheme: " +:+ URL upstream]
   else []) ++
  (if (HeaderName upstream !=? "") && (CookieName upstream !=? "") then
     ["both header_name and cookie_name defined: " +:+ URL upstream]
   else []).

(** The messages of an upstream that holds its parsed URL. *)
Definition messages_of (upstream : AuthDelegateUpstream) : list string :=
  match parsedURL upstream with
  | Some parsed => upstream_messages upstream (url.Scheme parsed)
  | None => []
  end.

(** The map of counts the loop of [validateUpstreams] builds from a list
    of names. *)
Definition count_names (names : list string) (counts : gmap string Z)
  : gmap string Z :=
  foldl (λ counts name, increment name counts) counts names.

(** The names [validateNameCounts] reports, in the order of the visit. *)
Definition repeatedNames (category : string) (counts : gmap string Z)
  : list string :=
  (filter (λ entry, (1 < entry.2)%Z) (map_range category (delete "" counts))).*1.

(** The message that reports a list of repeated names, none for none. *)
Definition report (category : string) (names : list string) : list string :=
  match names with
  | [] => []
  | _ => ["repeated " +:+ category +:+ ": " +:+ strings_Join names ", "]
  end.

(** The message [validateNameCounts] adds, if any. *)
Definition name_messages (category : string) (counts : gmap string Z)
  : list string :=
  report category (repeatedNames category counts).

(** A list of names in ascending order. *)
Definition ascending (names : list string) : Prop :=
  Sorted (λ a b, String.leb a b = true) names.

(** The message [validateDefaultUpstreams] adds, if any. *)
Definition default_messages (defaults : list string)
    (lastUpstream : AuthDelegateUpstream) : list string :=
  match defaults with
  | [] => []
  | [lastDefault] =>
      if lastDefault !=? URL lastUpstream then
        ["upstream without header_name or cookie_name not last in upstream list: "
         +:+ lastDefault]
      else []
  | _ => ["multiple upstreams without header_name or cookie_name"]
  end.

(** The messages [validateUpstreams] adds for a non-empty list of
    upstreams, given the list as the loop leaves it. *)
Definition upstreams_messages (given validated : list AuthDelegateUpstream)
    (lastUpstream : AuthDelegateUpstream) : list string :=
  concat (messages_of <$> validated) ++
  name_messages "cookie names" (count_names (CookieName <$> given) ∅) ++
  name_messages "header names" (count_names (HeaderName <$> given) ∅) ++
  default_messages (URL <$> filter is_default given) lastUpstream.

(** The error [Validate] makes of its messages. *)
Definition error_of (msgs : list string) : option string :=
  if negb (length msgs =? 0)%nat then Some (optionErrors msgs) else None.

(** The checks of [Validate] up to the list of messages. *)
Definition Validate_messages (opts : AuthDelegateOptions)
  : go (AuthDelegateOptions * list string) :=
  msgs ← validateSsl opts (validatePort opts []);
  validateUpstreams opts msgs.

End Program.

(** ** A runtime to compute with

    The theorems below hold for every [GoRuntime]. To evaluate the
    program on concrete configurations and requests, [Sample] provides
    one: the fragments of the library functions that the examples
    exercise, written after the Go sources. *)

Module Sample.

Definition code (c : ascii) : nat := Ascii.nat_of_ascii c.
Definition between (lo hi : nat) (c : ascii) : bool :=
  (lo <=? code c)%nat && (code c <=? hi)%nat.
Definition is_lower : ascii -> bool := between 97 122.
Definition is_upper : ascii -> bool := between 65 90.
Definition is_digit : ascii -> bool := between 48 57.
Definition to_lower (c : ascii) : ascii :=
  if is_upper c then Ascii.ascii_of_nat (code c + 32) else c.
Definition to_upper (c : ascii) : ascii :=
  if is_lower c then Ascii.ascii_of_nat (code c - 32) else c.

Fixpoint string_map (f : ascii -> ascii) (s : string) : string :=
  match s with
  | EmptyString => EmptyString
  | String c rest => String (f c) (string_map f rest)
  end.

Fixpoint string_forall (p : ascii -> bool) (s : string) : bool :=
  match s with
  | EmptyString => true
  | String c rest => p c && string_forall p rest
  end.

Fixpoint string_mem (c : ascii) (s : string) : bool :=
  match s with
  | EmptyString => false
  | String d rest => Ascii.eqb c d || string_mem c rest
  end.

(** [strings.Cut] at a one-byte separator *)
Fixpoint cut (sep : ascii) (s : string) : string * string * bool :=
  match s with
  | EmptyString => (EmptyString, EmptyString, false)
  | String c rest =>
      if Ascii.eqb c sep then (EmptyString, rest, true)
      else let '(before, after, found) := cut sep rest in
           (String c before, after, found)
  end.

(** [strings.Split] at a one-byte separator *)
Fixpoint split (sep : ascii) (s : string) : list string :=
  match s with
  | EmptyString => [EmptyString]
  | String c rest =>
      if Ascii.eqb c sep then EmptyString :: split sep rest
      else match split sep rest with
           | part :: parts => String c part :: parts
           | [] => [String c EmptyString]
           end
  end.

Fixpoint trim_left (s : string) : string :=
  match s with
  | String c rest => if Ascii.eqb c " " then trim_left rest else s
  | EmptyString => EmptyString
  end.

(** [textproto.TrimString], for spaces *)
Definition trim (s : string) : string :=
  String.rev (trim_left (String.rev (trim_left s))).

(** *** [net/url] *)

(** [getScheme]: the scheme and what follows the colon, or the whole
    string when it starts with no scheme. *)
Fixpoint getScheme_from (s : string) (i : nat) (rawURL : string)
  : string * string + string :=
  match s with
  | EmptyString => inl ("", rawURL)
  | String c rest =>
      if is_lower c || is_upper c then getScheme_from rest (S i) rawURL
      else if is_digit c || string_mem c "+-." then
        if (i =? 0)%nat then inl ("", rawURL)
        else getScheme_from rest (S i) rawURL
      else if Ascii.eqb c ":" then
        if (i =? 0)%nat then inr "missing protocol scheme"
        else inl (String.substring 0 i rawURL, rest)
      else inl ("", rawURL)
  end.

Definition getScheme (rawURL : string) : string * string + string :=
  getScheme_from rawURL 0 rawURL.

(** [url.Parse] on URLs of the shape [scheme://host/path?query] and on
    scheme-less paths. User information, escapes, fragments and opaque
    URLs are outside this fragment. The error text is the one of the Go
    releases of the time of the program, which do not quote the URL. *)
Definition Parse (rawURL : string) : url.URL + string :=
  match getScheme rawURL with
  | inr err => inr ("parse " +:+ rawURL +:+ ": " +:+ err)
  | inl (scheme, rest) =>
      let scheme := string_map to_lower scheme in
      let '(rest, query, _) := cut "?" rest in
      if strings_HasPrefix rest "//" then
        let authority := String.substring 2 (String.length rest - 2) rest in
        let '(host, path, slash) := cut "/" authority in
        inl (url.mkURL scheme host (if slash then "/" +:+ path else "") query)
      else inl (url.mkURL scheme "" rest query)
  end.

(** *** [net/textproto] *)

(** [validHeaderFieldByte]: the token characters of RFC 7230 *)
Definition validHeaderFieldByte (c : ascii) : bool :=
  is_lower c || is_upper c || is_digit c || string_mem c "!#$%&'*+-.^_`|~".

Fixpoint canonical_from (upper : bool) (s : string) : string :=
  match s with
  | EmptyString => EmptyString
  | String c rest =>
      let c := if upper then to_upper c else to_lower c in
      String c (canonical_from (Ascii.eqb c "-") rest)
  end.

Definition CanonicalKey (s : string) : string :=
  if string_forall validHeaderFieldByte s then canonical_from true s else s.

(** *** [net/http] *)

Definition isCookieNameValid (name : string) : bool :=
  (name !=? "") && string_forall validHeaderFieldByte name.

(** [readCookies], without the validation of the bytes of the value
    and without the removal of quotes around it. *)
Definition ReadCookies (h : http.Header) (filter : string) : list http.Cookie :=
  flat_map
    (fun line =>
       omap (fun part =>
               let part := trim part in
               let '(name, val, _) := cut "=" part in
               let name := trim name in
               if (part !=? "") && isCookieNameValid name
                  && (String.eqb filter "" || String.eqb filter name)
               then Some (http.mkCookie name val) else None)
            (split ";" (trim line)))
    (default [] (h !! "Cookie")).

(** *** [os], [encoding/json], maps *)

(** A file system with one regular file and one directory. *)
Definition Stat (path : string) : stat_result :=
  if String.eqb path "/etc/ssl/server.pem" then stat_info true
  else if String.eqb path "/etc/ssl" then stat_info false
  else if strings_HasPrefix path "/etc/ssl/server.pem/" then stat_other_error
  else stat_not_exist.

(** A decoder that knows the empty object, which leaves every field at
    its zero value. *)
Definition Unmarshal (config : string) : AuthDelegateOptions + string :=
  if String.eqb config "{}" then inl (mkOptions 0 "" "" [])
  else inr "invalid character".

#[export] Instance runtime : GoRuntime := {|
  url_Parse := Parse;
  os_Stat := Stat;
  json_Unmarshal := Unmarshal;
  map_range := fun _ m => map_to_list m;
  map_range_perm := fun _ m => reflexivity (map_to_list m);
  CanonicalMIMEHeaderKey := CanonicalKey;
  readCookies := ReadCookies;
|}.

(** The same runtime, with maps visited in the opposite order. *)
Definition runtime_rev : GoRuntime := {|
  url_Parse := Parse;
  os_Stat := Stat;
  json_Unmarshal := Unmarshal;
  map_range := fun _ m => reverse (map_to_list m);
  map_range_perm := fun _ m => reverse_Permutation (map_to_list m);
  CanonicalMIMEHeaderKey := CanonicalKey;
  readCookies := ReadCookies;
|}.

End Sample.

(** ** Configurations and requests to compute with *)

Module Example.

Definition upstream (url header cookie : string) : AuthDelegateUpstream :=
  mkUpstream url header cookie None.

Definition options (upstreams : list AuthDelegateUpstream) : AuthDelegateOptions :=
  mkOptions 443 "" "" upstreams.

(** The configuration of the README, with the names of the tests. *)
Definition cookie_header_default : AuthDelegateOptions :=
  options [ upstream "https://foo.com/auth" "" "_oauth2_proxy";
            upstream "http://127.0.0.1:8080/auth" "X-Signature" "";
            upstream "http://127.0.0.1/auth" "" "" ].

Definition foo : url.URL := url.mkURL "https" "foo.com" "/auth" "".
Definition local8080 : url.URL := url.mkURL "http" "127.0.0.1:8080" "/auth" "".
Definition local : url.URL := url.mkURL "http" "127.0.0.1" "/auth" "".

(** The same after validation: the parsed URLs are in place. *)
Definition validated : AuthDelegateOptions :=
  options [ with_parsed (upstream "https://foo.com/auth" "" "_oauth2_proxy") foo;
            with_parsed (upstream "http://127.0.0.1:8080/auth" "X-Signature" "")
              local8080;
            with_parsed (upstream "http://127.0.0.1/auth" "" "") local ].

(** No default upstream. *)
Definition header_cookie : AuthDelegateOptions :=
  options [ with_parsed (upstream "http://127.0.0.1:8080/auth" "X-Signature" "")
              local8080;
            with_parsed (upstream "https://foo.com/auth" "" "_cookie") foo ].

(** One default upstream, with a path of its own. *)
Definition oauth2 : url.URL := url.mkURL "http" "127.0.0.1" "/oauth2/auth" "".
Definition only_default : AuthDelegateOptions :=
  options [ with_parsed (upstream "http://127.0.0.1/oauth2/auth" "" "") oauth2 ].

(** GET /bar?quux, as a server receives it. *)
Definition get (headers : http.Header) : http.Request :=
  http.mkRequest "GET" (url.mkURL "" "" "/bar" "quux") headers "" "/bar?quux".

Definition signed : http.Header := {[ "X-Signature" := ["foobar"] ]}.
Definition signed_with_cookie : http.Header :=
  {[ "X-Signature" := ["foobar"]; "Cookie" := ["_cookie="] ]}.
Definition empty_signature : http.Header := {[ "X-Signature" := [""] ]}.

(** The handlers [NewAuthDelegate] builds from the last two. *)
Definition rule (header cookie : string) (target : url.URL) : authDelegate :=
  mkAuthDelegate header cookie (proxy_to (H:=Sample.runtime) target).
Definition header_cookie_handler : authDelegateHandler :=
  mkHandler [ rule "X-Signature" "" local8080; rule "" "_cookie" foo ].
Definition only_default_handler : authDelegateHandler :=
  mkHandler [ rule "" "" oauth2 ].

(** Configurations of the tests of the validator: a default upstream
    that is not last, two default upstreams, repeated names. *)
Definition default_first : AuthDelegateOptions :=
  options [ upstream "https://foo.com/auth" "" "";
            upstream "http://127.0.0.1:8080/auth" "X-Signature" "" ].
Definition two_defaults : AuthDelegateOptions :=
  options [ upstream "http://127.0.0.1:8080/auth" "" "";
            upstream "https://foo.com/auth" "" "" ].
Definition two_defaults_validated : AuthDelegateOptions :=
  options [ with_parsed (upstream "http://127.0.0.1:8080/auth" "" "") local8080;
            with_parsed (upstream "https://foo.com/auth" "" "") foo ].
Definition repeated : AuthDelegateOptions :=
  options [ upstream "https://foo.com/auth" "X-Signature" "";
            upstream "http://bar.com/auth" "X-Signature" "";
            upstream "https://baz.com/auth" "" "_cookie";
            upstream "http://quux.com/auth" "" "_cookie" ].

(** Two header names, each on two upstreams. *)
Definition repeated_twice : AuthDelegateOptions :=
  options [ upstream "http://a.com/auth" "X-A" "";
            upstream "http://b.com/auth" "X-A" "";
            upstream "http://c.com/auth" "X-B" "";
            upstream "http://d.com/auth" "X-B" "" ].
Definition repeated_twice_validated : AuthDelegateOptions :=
  options [ with_parsed (upstream "http://a.com/auth" "X-A" "")
              (url.mkURL "http" "a.com" "/auth" "");
            with_parsed (upstream "http://b.com/auth" "X-A" "")
              (url.mkURL "http" "b.com" "/auth" "");
            with_parsed (upstream "http://c.com/auth" "X-B" "")
              (url.mkURL "http" "c.com" "/auth" "");
            with_parsed (upstream "http://d.com/auth" "X-B" "")
              (url.mkURL "http" "d.com" "/auth" "") ].

(** A default upstream that is first and has the URL of the last. *)
Definition default_first_same_url : AuthDelegateOptions :=
  options [ upstream "http://127.0.0.1/auth" "" "";
            upstream "http://127.0.0.1/auth" "X-Signature" "" ].

(** A URL that [url.Parse] rejects: it starts with a colon. *)
Definition unparsed : AuthDelegateUpstream := upstream ":8080/auth" "" "".

End Example.

(** ** main.go: the process

    The process reads its arguments and one file, prints to the standard
    output, and ends in [os.Exit] or in the call that serves requests
    (which returns only when the server fails, and is then followed by
    [log.Fatal]). *)

Class GoProcess : Type := {
  (** [ioutil.ReadFile]: the bytes of the file, or an error text *)
  ioutil_ReadFile : string -> string + string;
}.

(** [strconv.Itoa], and the verb [%d] of [fmt.Printf] *)
Definition strconv_Itoa (i : Z) : string := pretty i.

Inductive ending : Type :=
| os_Exit (code : Z)
| ListenAndServe (addr : string) (handler : authDelegateHandler)
| ListenAndServeTLS (addr : string) (handler : authDelegateHandler)
    (certFile keyFile : string).

Section Process.
Context `{GoRuntime} `{GoProcess}.

(** What [usage] prints; [os.Args[0]] is out of range when there is no
    argument at all. *)
Definition usage (args : list string) : go (list string) :=
  match args !! 0%nat with
  | Some program => Ret ["Usage: " +:+ program +:+ " config.json" +:+ newline]
  | None => Panic index_out_of_range
  end.

Definition printErrorAndExit (operation configPath err : string)
  : list string * ending :=
  (["Error " +:+ operation +:+ " " +:+ configPath +:+ ": " +:+ err +:+ newline],
   os_Exit 1).

(** [main] on the arguments of the process: what it prints, and how it
    ends. *)
Definition main (args : list string) : go (list string * ending) :=
  if negb (length args =? 2)%nat then
    printed ← usage args; Ret (printed, os_Exit 1)
  else
    match args !! 1%nat with
    | None => Panic index_out_of_range
    | Some configPath =>
        match ioutil_ReadFile configPath with
        | inr err => Ret (printErrorAndExit "reading" configPath err)
        | inl configBytes =>
            '(opts, err) ← NewAuthDelegateOptionsFromJSON configBytes;
            match err, opts with
            | Some e, _ => Ret (printErrorAndExit "parsing" configPath e)
            | None, None => Panic nil_dereference
            | None, Some opts =>
                let address := ":" +:+ strconv_Itoa (Port opts) in
                handler ← NewAuthDelegate opts;
                let printed :=
                  ["port " +:+ strconv_Itoa (Port opts) +:+
                   ": awaiting auth delegation requests" +:+ newline] in
                if SslCert opts !=? "" then
                  Ret (printed,
                       ListenAndServeTLS address handler (SslCert opts) (SslKey opts))
                else Ret (printed, ListenAndServe address handler)
            end
        end
    end.

(** ** More vocabulary *)

(** Two upstreams with the same URL and names (the parsed URL apart). *)
Definition same_fields (u v : AuthDelegateUpstream) : Prop :=
  URL v = URL u ∧ HeaderName v = HeaderName u ∧ CookieName v = CookieName u.

(** The TLS material is in order: no certificate and no key, or both,
    each a regular file. *)
Definition tls_ok (opts : AuthDelegateOptions) : Prop :=
  (SslCert opts = "" ∧ SslKey opts = "") ∨
  (SslCert opts ≠ "" ∧ SslKey opts ≠ "" ∧
   os_Stat (SslCert opts) = stat_info true ∧
   os_Stat (SslKey opts) = stat_info true).

(** [os.Stat] fails on a path that is given, with an error that is
    neither "not exist" nor "permission". *)
Definition tls_stat_fails (opts : AuthDelegateOptions) : Prop :=
  (SslCert opts ≠ "" ∧ os_Stat (SslCert opts) = stat_other_error) ∨
  (SslKey opts ≠ "" ∧ os_Stat (SslKey opts) = stat_other_error).

(** An upstream that passes [validateUpstream] without a message. *)
Definition valid_upstream (upstream : AuthDelegateUpstream) : Prop :=
  ∃ parsed,
    url_Parse (URL upstream) = inl parsed ∧
    (url.Scheme parsed = "http" ∨ url.Scheme parsed = "https") ∧
    (HeaderName upstream = "" ∨ CookieName upstream = "").

(** The default upstreams pass [validateDefaultUpstreams]: there is
    none, or there is one and its URL is the URL of the last upstream. *)
Definition defaults_ok (given : list AuthDelegateUpstream) : Prop :=
  filter is_default given = [] ∨
  ∃ d lastGiven,
    filter is_default given = [d] ∧ last given = Some lastGiven ∧
    URL d = URL lastGiven.

(** The configurations that [Validate] accepts. *)
Definition valid_config (opts : AuthDelegateOptions) : Prop :=
  (0 < Port opts)%Z ∧
  tls_ok opts ∧
  Upstreams opts ≠ [] ∧
  Forall valid_upstream (Upstreams opts) ∧
  (∀ name, ¬ repeated_in (CookieName <$> Upstreams opts) name) ∧
  (∀ name, ¬ repeated_in (HeaderName <$> Upstreams opts) name) ∧
  defaults_ok (Upstreams opts).

(** The upstreams with the parsed URLs that validation stores. *)
Definition store_parsed (upstream : AuthDelegateUpstream) : AuthDelegateUpstream :=
  match url_Parse (URL upstream) with
  | inl parsed => with_parsed upstream parsed
  | inr _ => upstream
  end.

End Process.

(** ** Two runs

    A runtime fixes the order in which one execution of each [range]
    statement visits its map. Go chooses the order anew at every
    execution, so two calls of [Validate], also in one process, are two
    runtimes: [url.Parse] and [os.Stat] answer alike in both (the files
    have not changed in between), the orders may differ. *)
Definition same_answers (R R' : GoRuntime) : Prop :=
  (∀ rawurl, url_Parse (GoRuntime:=R') rawurl = url_Parse (GoRuntime:=R) rawurl) ∧
  (∀ path, os_Stat (GoRuntime:=R') path = os_Stat (GoRuntime:=R) path).

Definition same_map_order (R R' : GoRuntime) : Prop :=
  ∀ site counts,
    map_range (GoRuntime:=R') site counts = map_range (GoRuntime:=R) site counts.

(** A process that finds two configuration files: one with the empty
    object, one with a port and one upstream. The decoder knows these
    two texts. *)
Module SampleProcess.

Definition quote : string := String (Ascii.ascii_of_nat 34) "".

(** The text {"port": 8080, "upstreams": [{"url": "http://127.0.0.1/auth"}]},
    with its quotation marks. *)
Definition one_upstream_text : string :=
  "{" +:+ quote +:+ "port" +:+ quote +:+ ": 8080, " +:+
  quote +:+ "upstreams" +:+ quote +:+ ": [{" +:+
  quote +:+ "url" +:+ quote +:+ ": " +:+
  quote +:+ "http://127.0.0.1/auth" +:+ quote +:+ "}]}".

Definition one_upstream : AuthDelegateOptions :=
  mkOptions 8080 "" "" [mkUpstream "http://127.0.0.1/auth" "" "" None].

Definition Unmarshal (config : string) : AuthDelegateOptions + string :=
  if String.eqb config one_upstream_text then inl one_upstream
  else Sample.Unmarshal config.

Definition ReadFile (path : string) : string + string :=
  if String.eqb path "config.json" then inl "{}"
  else if String.eqb path "auth.json" then inl one_upstream_text
  else inr ("open " +:+ path +:+ ": no such file or directory").

#[export] Instance process : GoProcess := {| ioutil_ReadFile := ReadFile |}.

Definition runtime : GoRuntime := {|
  url_Parse := Sample.Parse;
  os_Stat := Sample.Stat;
  json_Unmarshal := Unmarshal;
  map_range := fun _ m => map_to_list m;
  map_range_perm := fun _ m => reflexivity (map_to_list m);
  CanonicalMIMEHeaderKey := Sample.CanonicalKey;
  readCookies := Sample.ReadCookies;
|}.

End SampleProcess.

(** ** More configurations and requests *)

Module MoreExamples.

(** A header rule, a default rule, and a cookie rule after it. *)
Definition header_rule : authDelegate :=
  Example.rule "X-Signature" "" Example.local8080.
Definition default_rule : authDelegate := Example.rule "" "" Example.local.
Definition cookie_rule : authDelegate := Example.rule "" "_cookie" Example.foo.

(** A POST with the headers of [Example.get Example.signed]. *)
Definition post_signed : http.Request :=
  http.mkRequest "POST" (url.mkURL "" "" "/upload" "") Example.signed "payload"
    "/upload".

(** GET /bar?quux as the first handler forwards it, and as the second
    receives and forwards it. *)
Definition first_hop_headers : http.Header :=
  {[ "X-Original-Uri" := ["/bar?quux"] ]}.
Definition first_hop_out : http.Request :=
  http.mkRequest "GET" Example.oauth2 first_hop_headers "" "/bar?quux".
Definition second_hop_in : http.Request :=
  http.mkRequest "GET" (url.mkURL "" "" "/oauth2/auth" "") first_hop_headers ""
    "/oauth2/auth".
Definition second_hop_out : http.Request :=
  http.mkRequest "GET" Example.oauth2 first_hop_headers "" "/oauth2/auth".

(** TLS paths: a certificate without a key; a path below a regular
    file, on which [os.Stat] fails with "not a directory". *)
Definition cert_only : AuthDelegateOptions :=
  mkOptions 443 "/etc/ssl/server.pem" "" [].
Definition cert_below_file : AuthDelegateOptions :=
  mkOptions 443 "/etc/ssl/server.pem/cert" "" [].

(** The malformed URLs of the tests of the validator. *)
Definition no_scheme : AuthDelegateUpstream :=
  Example.upstream "foo.com/auth" "" "_oauth2_proxy".
Definition malformed : AuthDelegateOptions :=
  Example.options [ no_scheme;
                    Example.upstream "gopher://127.0.0.1:8080/auth" "X-Signature" "" ].

End MoreExamples.

(** * Properties *)

(** ** Strings and panics *)

Lemma str_ne_true (a b : string) : (a !=? b) = true ↔ a ≠ b.
Proof.
  unfold str_ne. rewrite negb_true_iff.
  destruct (String.eqb_spec a b); split; congruence.
Qed.

Lemma str_ne_false (a b : string) : (a !=? b) = false ↔ a = b.
Proof.
  unfold str_ne. rewrite negb_false_iff. apply String.eqb_eq.
Qed.

Lemma go_bind_Ret {A B} (m : go A) (k : A -> go B) (b : B) :
  m ≫= k = Ret b ↔ ∃ a, m = Ret a ∧ k a = Ret b.
Proof.
  destruct m as [a|r]; simpl; split.
  - eauto.
  - intros (a' & [= <-] & Hk). exact Hk.
  - discriminate.
  - intros (a' & [=] & _).
Qed.

Section Dispatcher.
Context `{GoRuntime}.

(** ** The dispatch table *)

Lemma newAuthDelegateReverseProxy_Ret (target : option url.URL)
    (proxy : httputil.ReverseProxy) :
  newAuthDelegateReverseProxy target = Ret proxy ↔
  ∃ u, target = Some u ∧ proxy = proxy_to u.
Proof.
  unfold newAuthDelegateReverseProxy, proxy_to.
  destruct target as [u|]; simpl; split.
  - intros [= <-]. eauto.
  - intros (u' & [= <-] & ->). reflexivity.
  - discriminate.
  - intros (u' & [=] & _).
Qed.

Lemma NewAuthDelegate_range_Ret (rest : list AuthDelegateUpstream)
    (h0 h : authDelegateHandler) :
  NewAuthDelegate_range rest h0 = Ret h →
  ∃ rules, upstreams h = upstreams h0 ++ rules ∧ Forall2 rule_of rest rules.
Proof.
  revert h0. induction rest as [|upstream rest IH]; intros h0; simpl.
  - intros [= <-]. exists []. split; [by rewrite app_nil_r | constructor].
  - rewrite go_bind_Ret. intros (proxy & Hproxy & Hrest).
    apply newAuthDelegateReverseProxy_Ret in Hproxy as (u & Hu & ->).
    apply IH in Hrest as (rules & Hrules & Hall). simpl in Hrules.
    eexists (_ :: rules). split.
    + rewrite Hrules, <- app_assoc. reflexivity.
    + constructor; [|exact Hall]. repeat split; simpl; eauto.
Qed.

Lemma NewAuthDelegate_Ret (opts : AuthDelegateOptions) (h : authDelegateHandler) :
  NewAuthDelegate opts = Ret h → Forall2 rule_of (Upstreams opts) (upstreams h).
Proof.
  intros Hh. apply NewAuthDelegate_range_Ret in Hh as (rules & -> & Hall).
  exact Hall.
Qed.

Lemma NewAuthDelegate_range_total (rest : list AuthDelegateUpstream)
    (h0 : authDelegateHandler) :
  Forall (λ upstream, is_Some (parsedURL upstream)) rest →
  ∃ h, NewAuthDelegate_range rest h0 = Ret h.
Proof.
  intros Hall. revert h0.
  induction Hall as [|upstream rest [u Hu] _ IH]; intros h0; simpl.
  - eauto.
  - rewrite Hu. simpl. apply IH.
Qed.

(** ** The scan of the rules *)

Lemma ServeHTTP_range_first (before after : list authDelegate)
    (d : authDelegate) (req : http.Request) :
  Forall (λ d', accepts d' req = false) before →
  accepts d req = true →
  ServeHTTP_range (before ++ d :: after) req = httputil.ServeHTTP (handler d) req.
Proof.
  intros Hbefore Hd. induction Hbefore as [|d' before Hd' _ IH]; simpl.
  - by rewrite Hd.
  - by rewrite Hd'.
Qed.

Lemma ServeHTTP_range_none (rules : list authDelegate) (req : http.Request) :
  Forall (λ d, accepts d req = false) rules →
  ServeHTTP_range rules req = http.Error "unauthorized request" 401.
Proof.
  induction 1 as [|d rules Hd _ IH]; simpl; [reflexivity|]. by rewrite Hd.
Qed.

(** The scan stops at the first rule that accepts, or runs off the end. *)
Lemma ServeHTTP_range_cases (rules : list authDelegate) (req : http.Request) :
  (Forall (λ d, accepts d req = false) rules ∧
   ServeHTTP_range rules req = http.Error "unauthorized request" 401) ∨
  (∃ before d after,
     rules = before ++ d :: after ∧
     Forall (λ d', accepts d' req = false) before ∧
     accepts d req = true ∧
     ServeHTTP_range rules req = httputil.ServeHTTP (handler d) req).
Proof.
  induction rules as [|d rules IH]; simpl.
  - left. split; [constructor | reflexivity].
  - destruct (accepts d req) eqn:Hd.
    + right. exists [], d, rules. repeat split; [constructor | exact Hd].
    + destruct IH as [[Hall Herr] | (before & d0 & after & -> & Hb & Hd0 & Hs)].
      * left. split; [by constructor | exact Herr].
      * right. exists (d :: before), d0, after.
        repeat split; [by constructor | exact Hd0 | exact Hs].
Qed.

End Dispatcher.

Section Validator.
Context `{GoRuntime}.

(** ** One upstream *)

Lemma validateUpstream_parsed (upstream : AuthDelegateUpstream)
    (parsed : url.URL) (msgs : list string) :
  url_Parse (URL upstream) = inl parsed →
  validateUpstream upstream msgs =
  Ret (with_parsed upstream parsed,
       msgs ++ upstream_messages upstream (url.Scheme parsed)).
Proof.
  intros Hparse. unfold validateUpstream, validateUpstream_parse, upstream_messages.
  rewrite Hparse. simpl.
  destruct (String.eqb _ ""); [|destruct (negb _)];
    destruct (_ && _); simpl; rewrite <- ?app_assoc, ?app_nil_r; reflexivity.
Qed.

Lemma validateUpstream_unparsed (upstream : AuthDelegateUpstream)
    (err : string) (msgs : list string) :
  url_Parse (URL upstream) = inr err →
  validateUpstream upstream msgs = Panic nil_dereference.
Proof.
  intros Hparse. unfold validateUpstream, validateUpstream_parse.
  rewrite Hparse. reflexivity.
Qed.

Lemma messages_of_with_parsed (upstream : AuthDelegateUpstream) (parsed : url.URL) :
  messages_of (with_parsed upstream parsed) =
  upstream_messages upstream (url.Scheme parsed).
Proof. reflexivity. Qed.

(** No message for an upstream means a known scheme and at most one
    name. *)
Lemma messages_of_nil (upstream : AuthDelegateUpstream) (parsed : url.URL) :
  parsedURL upstream = Some parsed →
  messages_of upstream = [] →
  (url.Scheme parsed = "http" ∨ url.Scheme parsed = "https") ∧
  (HeaderName upstream = "" ∨ CookieName upstream = "").
Proof.
  intros Hp. unfold messages_of, upstream_messages. rewrite Hp.
  destruct (String.eqb_spec (url.Scheme parsed) ""); [discriminate|].
  destruct (String.eqb_spec (url.Scheme parsed) "http") as [Hh|Hh];
    destruct (String.eqb_spec (url.Scheme parsed) "https") as [Hs|Hs];
    simpl; try discriminate;
    (destruct (HeaderName upstream !=? "") eqn:Hn;
     [destruct (CookieName upstream !=? "") eqn:Hc|]; simpl; try discriminate;
     intros _; (split; [tauto|]);
     [right; by apply str_ne_false | left; by apply str_ne_false]).
Qed.

(** ** The loop over the upstreams *)

Lemma validated_as_fields (upstream validated : AuthDelegateUpstream) :
  validated_as upstream validated →
  URL validated = URL upstream ∧ HeaderName validated = HeaderName upstream ∧
  CookieName validated = CookieName upstream ∧ is_Some (parsedURL validated).
Proof. intros (parsed & _ & ->). simpl. eauto. Qed.

Lemma validateUpstreams_loop_Ret (rest : list AuthDelegateUpstream) (st st' : scan) :
  validateUpstreams_loop rest st = Ret st' →
  ∃ validated,
    Forall2 validated_as rest validated ∧
    visited st' = visited st ++ validated ∧
    scan_msgs st' = scan_msgs st ++ concat (messages_of <$> validated) ∧
    defaultUpstreams st' =
      defaultUpstreams st ++ (URL <$> filter is_default rest) ∧
    cookieNames st' = count_names (CookieName <$> rest) (cookieNames st) ∧
    headerNames st' = count_names (HeaderName <$> rest) (headerNames st).
Proof.
  revert st. induction rest as [|current rest IH]; intros st; simpl.
  - intros [= <-]. exists []. rewrite !app_nil_r. repeat split; constructor.
  - destruct (url_Parse (URL current)) as [parsed|err] eqn:Hparse.
    + rewrite (validateUpstream_parsed _ _ _ Hparse). simpl. intros Hrest.
      apply IH in Hrest as (validated & Hall & Hv & Hm & Hd & Hc & Hh).
      simpl in *. exists (with_parsed current parsed :: validated).
      split; [constructor; [by exists parsed | exact Hall]|].
      split; [by rewrite Hv, <- app_assoc|].
      split; [rewrite Hm, <- app_assoc; reflexivity|].
      split; [|by split].
      rewrite Hd. rewrite filter_cons. unfold is_default.
      destruct (String.eqb_spec (HeaderName current) "") as [Hhn|Hhn];
        destruct (String.eqb_spec (CookieName current) "") as [Hcn|Hcn]; simpl;
        case_decide; try tauto; simpl; by rewrite <- ?app_assoc.
    + rewrite (validateUpstream_unparsed _ _ _ Hparse). discriminate.
Qed.

Lemma validateUpstreams_loop_total (rest : list AuthDelegateUpstream) (st : scan) :
  Forall parses rest → ∃ st', validateUpstreams_loop rest st = Ret st'.
Proof.
  intros Hall. revert st.
  induction Hall as [|current rest [parsed Hparse] _ IH]; intros st; simpl.
  - eauto.
  - rewrite (validateUpstream_parsed _ _ _ Hparse). simpl. apply IH.
Qed.

Lemma validateUpstreams_loop_panic (rest : list AuthDelegateUpstream) (st : scan) :
  Exists (λ upstream, ∃ err, url_Parse (URL upstream) = inr err) rest →
  validateUpstreams_loop rest st = Panic nil_dereference.
Proof.
  intros Hex. revert st.
  induction Hex as [current rest [err Herr] | current rest _ IH]; intros st; simpl.
  - by rewrite (validateUpstream_unparsed _ _ _ Herr).
  - destruct (validateUpstream current (scan_msgs st)) as [[c m]|r] eqn:Hc; simpl.
    + apply IH.
    + unfold validateUpstream in Hc.
      destruct (validateUpstream_parse current (scan_msgs st)) as [u m].
      destruct (parsedURL u); [discriminate|]. by injection Hc as <-.
Qed.

(** ** Counting names *)

Lemma occurrences_cons (name n : string) (names : list string) :
  occurrences name (n :: names) =
  if decide (n = name) then S (occurrences name names) else occurrences name names.
Proof. unfold occurrences. rewrite filter_cons. by case_decide. Qed.

Lemma count_names_lookup (names : list string) (counts : gmap string Z)
    (name : string) :
  count_names names counts !! name =
  if decide (occurrences name names = 0)%nat then counts !! name
  else Some (default 0 (counts !! name) + Z.of_nat (occurrences name names))%Z.
Proof.
  revert counts. induction names as [|n names IH]; intros counts; [reflexivity|].
  unfold count_names in *. simpl. rewrite IH, occurrences_cons. unfold increment.
  destruct (decide (n = name)) as [->|Hne].
  - rewrite lookup_insert_eq. simpl.
    repeat case_decide; try lia; f_equal; lia.
  - rewrite lookup_insert_ne by done. reflexivity.
Qed.

Lemma count_names_empty (names : list string) (name : string) (n : Z) :
  count_names names ∅ !! name = Some n ↔
  (0 < occurrences name names)%nat ∧ n = Z.of_nat (occurrences name names).
Proof.
  rewrite count_names_lookup, lookup_empty. case_decide; simpl.
  - split; [discriminate | lia].
  - split; [intros [= <-]; lia | intros [_ ->]; f_equal; lia].
Qed.

(** The names reported are the non-empty names that occur twice or more,
    each once, in some order. *)
Lemma repeatedNames_spec (category : string) (names : list string) :
  NoDup (repeatedNames category (count_names names ∅)) ∧
  ∀ name, name ∈ repeatedNames category (count_names names ∅) ↔
          repeated_in names name.
Proof.
  unfold repeatedNames.
  set (counts := delete "" (count_names names ∅)).
  assert (Hperm : filter (λ entry : string * Z, (1 < entry.2)%Z)
                    (map_range category counts)
                  ≡ₚ filter (λ entry : string * Z, (1 < entry.2)%Z)
                    (map_to_list counts))
    by (by rewrite map_range_perm).
  split.
  - rewrite Hperm. apply NoDup_fmap_fst.
    + intros k x y Hx Hy.
      apply list_elem_of_filter in Hx as [_ Hx], Hy as [_ Hy].
      apply elem_of_map_to_list in Hx, Hy. congruence.
    + apply NoDup_filter, NoDup_map_to_list.
  - intros name. rewrite Hperm, list_elem_of_fmap. unfold repeated_in. split.
    + intros ([k n] & -> & Hin). apply list_elem_of_filter in Hin as [Hn Hin].
      apply elem_of_map_to_list in Hin. simpl in *. unfold counts in Hin.
      apply lookup_delete_Some in Hin as [Hne Hin].
      apply count_names_empty in Hin as [_ ->]. split; [done | lia].
    + intros [Hne Hocc]. exists (name, Z.of_nat (occurrences name names)).
      split; [reflexivity|]. apply list_elem_of_filter. split; [simpl; lia|].
      apply elem_of_map_to_list. unfold counts.
      apply lookup_delete_Some. split; [done|].
      apply count_names_empty. split; [lia | reflexivity].
Qed.

Lemma validateNameCounts_eq (category : string) (counts : gmap string Z)
    (msgs : list string) :
  validateNameCounts category counts msgs =
  msgs ++ name_messages category counts.
Proof.
  unfold validateNameCounts, name_messages, report.
  fold (repeatedNames category counts).
  destruct (repeatedNames category counts); simpl; by rewrite ?app_nil_r.
Qed.

(** ** The default upstream *)

Lemma validateDefaultUpstreams_eq (defaults : list string)
    (lastUpstream : AuthDelegateUpstream) (msgs : list string) :
  validateDefaultUpstreams defaults lastUpstream msgs =
  msgs ++ default_messages defaults lastUpstream.
Proof.
  unfold validateDefaultUpstreams, default_messages.
  destruct defaults as [|d [|d' defaults]]; simpl; rewrite ?app_nil_r; try done.
  by destruct (d !=? URL lastUpstream); rewrite ?app_nil_r.
Qed.

(** ** All the upstreams *)

Lemma validateUpstreams_empty (opts : AuthDelegateOptions) (msgs : list string) :
  Upstreams opts = [] →
  validateUpstreams opts msgs = Ret (opts, msgs ++ ["no upstreams defined"]).
Proof. intros Hnil. unfold validateUpstreams. by rewrite Hnil. Qed.

Lemma Forall2_validated_last (given validated : list AuthDelegateUpstream) :
  Forall2 validated_as given validated → given ≠ [] →
  ∃ lastGiven lastUpstream,
    last given = Some lastGiven ∧ last validated = Some lastUpstream ∧
    validated_as lastGiven lastUpstream.
Proof.
  intros Hall Hne.
  destruct (last given) as [lastGiven|] eqn:Hlast;
    [|by apply last_None in Hlast].
  pose proof (Forall2_length _ _ _ Hall) as Hlen.
  rewrite last_lookup in Hlast.
  destruct (Forall2_lookup_l _ _ _ _ _ Hall Hlast) as (lastUpstream & Hl & Hv).
  exists lastGiven, lastUpstream. split; [reflexivity|].
  split; [by rewrite last_lookup, <- Hlen | exact Hv].
Qed.

Lemma validateUpstreams_Ret (opts opts' : AuthDelegateOptions)
    (msgs0 msgs : list string) :
  Upstreams opts ≠ [] →
  validateUpstreams opts msgs0 = Ret (opts', msgs) →
  ∃ validated lastUpstream,
    Forall2 validated_as (Upstreams opts) validated ∧
    last validated = Some lastUpstream ∧
    opts' = mkOptions (Port opts) (SslCert opts) (SslKey opts) validated ∧
    msgs = msgs0 ++ upstreams_messages (Upstreams opts) validated lastUpstream.
Proof.
  intros Hne. unfold validateUpstreams.
  destruct (Upstreams opts) as [|u given] eqn:Hgiven; [done|].
  change (length (u :: given) =? 0)%nat with false. cbv iota.
  rewrite go_bind_Ret. intros (st & Hloop & Hret).
  apply validateUpstreams_loop_Ret in Hloop
    as (validated & Hall & Hv & Hm & Hd & Hc & Hh). simpl in Hv, Hm, Hd.
  rewrite Hv, Hm, Hd, Hc, Hh in Hret.
  destruct (last validated) as [lastUpstream|] eqn:Hlast; [|discriminate].
  rewrite !validateNameCounts_eq, validateDefaultUpstreams_eq in Hret.
  injection Hret as <- <-. exists validated, lastUpstream.
  split; [exact Hall|]. split; [exact Hlast|]. split; [reflexivity|].
  unfold upstreams_messages. by rewrite <- !app_assoc.
Qed.

Lemma validateUpstreams_total (opts : AuthDelegateOptions) (msgs0 : list string) :
  Upstreams opts ≠ [] → Forall parses (Upstreams opts) →
  ∃ validated lastUpstream,
    Forall2 validated_as (Upstreams opts) validated ∧
    last validated = Some lastUpstream ∧
    validateUpstreams opts msgs0 =
    Ret (mkOptions (Port opts) (SslCert opts) (SslKey opts) validated,
         msgs0 ++ upstreams_messages (Upstreams opts) validated lastUpstream).
Proof.
  intros Hne Hall.
  destruct (validateUpstreams opts msgs0) as [[opts' msgs]|reason] eqn:Hv.
  - destruct (validateUpstreams_Ret _ _ _ _ Hne Hv)
      as (validated & lastUpstream & H2 & Hlast & -> & ->). eauto.
  - exfalso. unfold validateUpstreams in Hv.
    destruct (Upstreams opts) as [|u given] eqn:Hgiven; [done|].
    change (length (u :: given) =? 0)%nat with false in Hv. cbv iota in Hv.
    destruct (validateUpstreams_loop_total (u :: given) (mkScan [] msgs0 [] ∅ ∅) Hall)
      as [st Hst].
    pose proof Hst as Hst'.
    apply validateUpstreams_loop_Ret in Hst' as (validated & H2 & Hvis & _).
    rewrite Hst in Hv. simpl in Hv, Hvis. rewrite Hvis in Hv.
    destruct (Forall2_validated_last _ _ H2) as (? & lastUpstream & _ & Hl & _);
      [done|].
    rewrite Hl in Hv. discriminate.
Qed.

Lemma validateUpstreams_panic (opts : AuthDelegateOptions) (msgs : list string) :
  Exists (λ upstream, ∃ err, url_Parse (URL upstream) = inr err) (Upstreams opts) →
  validateUpstreams opts msgs = Panic nil_dereference.
Proof.
  intros Hex. unfold validateUpstreams.
  destruct (Upstreams opts) as [|u given] eqn:Hgiven; [by inversion Hex|].
  change (length (u :: given) =? 0)%nat with false. cbv iota.
  by rewrite (validateUpstreams_loop_panic _ _ Hex).
Qed.

(** ** The whole validation *)

Lemma Validate_eq (opts : AuthDelegateOptions) :
  Validate opts =
  Validate_messages opts ≫= λ '(opts', msgs), Ret (opts', error_of msgs).
Proof.
  unfold Validate, Validate_messages.
  destruct (validateSsl opts (validatePort opts [])) as [msgs|]; [|reflexivity].
  simpl. destruct (validateUpstreams opts msgs) as [[opts' msgs']|]; reflexivity.
Qed.

Lemma error_of_None (msgs : list string) : error_of msgs = None ↔ msgs = [].
Proof. unfold error_of. destruct msgs; simpl; split; congruence. Qed.

Lemma error_of_Some (msgs : list string) :
  msgs ≠ [] → error_of msgs = Some (optionErrors msgs).
Proof. unfold error_of. by destruct msgs. Qed.

(** The panics of [validateSsl] and of [validateUpstreams] are nil
    dereferences, so are those of [Validate]. *)
Lemma validateSsl_Panic (opts : AuthDelegateOptions) (msgs : list string)
    (reason : string) :
  validateSsl opts msgs = Panic reason → reason = nil_dereference.
Proof.
  unfold validateSsl, checkExistenceAndPermission.
  repeat first
    [ discriminate
    | match goal with
      | |- context [match os_Stat ?p with _ => _ end] => destruct (os_Stat p)
      | |- context [if ?b then _ else _] => destruct b
      end; simpl ]; congruence.
Qed.

End Validator.

Section Dispatch.
Context `{GoRuntime}.

(** Whenever some rule accepts, the scan serves the request through the
    accepting rule of lowest index. *)
Lemma ServeHTTP_range_lowest (rules : list authDelegate) (req : http.Request)
    (i : nat) (d : authDelegate) :
  rules !! i = Some d → accepts d req = true →
  ∃ k dk,
    (k ≤ i)%nat ∧ rules !! k = Some dk ∧ accepts dk req = true ∧
    (∀ m d', (m < k)%nat → rules !! m = Some d' → accepts d' req = false) ∧
    ServeHTTP_range rules req = httputil.ServeHTTP (handler dk) req.
Proof.
  intros Hi Hd.
  destruct (ServeHTTP_range_cases rules req)
    as [[Hall _] | (before & dk & after & -> & Hbefore & Hdk & Hserve)].
  - rewrite Forall_lookup in Hall. specialize (Hall _ _ Hi). congruence.
  - exists (length before), dk.
    assert (Hk : (before ++ dk :: after) !! length before = Some dk)
      by (by rewrite list_lookup_middle).
    split; [|split; [exact Hk|split; [exact Hdk|split; [|exact Hserve]]]].
    + destruct (decide (i < length before)%nat) as [Hlt|]; [|lia].
      rewrite lookup_app_l in Hi by exact Hlt.
      rewrite Forall_lookup in Hbefore. specialize (Hbefore _ _ Hi). congruence.
    + intros m d' Hm Hd'. rewrite lookup_app_l in Hd' by exact Hm.
      rewrite Forall_lookup in Hbefore. exact (Hbefore _ _ Hd').
Qed.

(** What the director of a rule makes of a request. *)
Lemma authDelegateDirector_fields (target : url.URL) (req : http.Request) :
  let outreq := httputil.Director (proxy_to target) req in
  http.URL outreq = target ∧
  http.Method outreq = http.Method req ∧
  http.Body outreq = http.Body req ∧
  http.RequestURI outreq = http.RequestURI req ∧
  http.Header_ outreq =
    (if String.eqb (Header_Get (http.Header_ req) "X-Original-URI") "" then
       Header_Set (http.Header_ req) "X-Original-URI" (http.RequestURI req)
     else http.Header_ req).
Proof.
  simpl. unfold authDelegateDirector, httputil.singleHostDirector. simpl.
  destruct (String.eqb _ ""); simpl; repeat split.
Qed.

(** A request that is forwarded went through the director of the first
    rule that accepts it. *)
Lemma ServeHTTP_RoundTrip (opts : AuthDelegateOptions) (h : authDelegateHandler)
    (req outreq : http.Request) :
  NewAuthDelegate opts = Ret h →
  ServeHTTP h req = http.RoundTrip outreq →
  ∃ i upstream d target,
    Upstreams opts !! i = Some upstream ∧ upstreams h !! i = Some d ∧
    accepts d req = true ∧
    (∀ m d', (m < i)%nat → upstreams h !! m = Some d' → accepts d' req = false) ∧
    parsedURL upstream = Some target ∧
    outreq = httputil.Director (proxy_to target) req.
Proof.
  intros Hh Hserve. apply NewAuthDelegate_Ret in Hh. unfold ServeHTTP in Hserve.
  destruct (ServeHTTP_range_cases (upstreams h) req)
    as [[_ Herr] | (before & d & after & Hsplit & Hbefore & Hd & Hs)];
    [congruence|].
  assert (Hi : upstreams h !! length before = Some d)
    by (by rewrite Hsplit, list_lookup_middle).
  destruct (Forall2_lookup_r _ _ _ _ _ Hh Hi)
    as (upstream & Hup & Hn & Hc & target & Ht & Hproxy).
  exists (length before), upstream, d, target.
  split; [exact Hup|]. split; [exact Hi|]. split; [exact Hd|].
  split; [|split; [exact Ht|]].
  - intros m d' Hm Hd'. rewrite Hsplit, lookup_app_l in Hd' by exact Hm.
    rewrite Forall_lookup in Hbefore. exact (Hbefore _ _ Hd').
  - rewrite Hs, Hproxy in Hserve. by injection Hserve as <-.
Qed.

End Dispatch.

Section Validation.
Context `{GoRuntime}.

Lemma Validate_Ret (given opts : AuthDelegateOptions) (err : option string) :
  Validate given = Ret (opts, err) ↔
  ∃ msgs1 msgs,
    validateSsl given (validatePort given []) = Ret msgs1 ∧
    validateUpstreams given msgs1 = Ret (opts, msgs) ∧
    err = error_of msgs.
Proof.
  rewrite Validate_eq. unfold Validate_messages.
  destruct (validateSsl given (validatePort given [])) as [msgs1|]; simpl.
  - destruct (validateUpstreams given msgs1) as [[opts' msgs]|] eqn:Hu; simpl; split.
    + intros [= <- <-]. by exists msgs1, msgs.
    + intros (? & ? & [= <-] & Hu' & ->). rewrite Hu in Hu'.
      by injection Hu' as <- <-.
    + discriminate.
    + intros (? & ? & [= <-] & Hu' & _). rewrite Hu in Hu'. discriminate.
  - split; [discriminate | intros (? & ? & [=] & _)].
Qed.

(** A validation that succeeds has gone through every check without a
    message. *)
Lemma Validate_success (given opts : AuthDelegateOptions) :
  Validate given = Ret (opts, None) →
  ∃ validated lastUpstream,
    Upstreams given ≠ [] ∧
    Forall2 validated_as (Upstreams given) validated ∧
    last validated = Some lastUpstream ∧
    opts = mkOptions (Port given) (SslCert given) (SslKey given) validated ∧
    upstreams_messages (Upstreams given) validated lastUpstream = [].
Proof.
  rewrite Validate_Ret. intros (msgs1 & msgs & _ & Hups & Herr).
  symmetry in Herr. apply error_of_None in Herr as ->.
  destruct (decide (Upstreams given = [])) as [Hnil|Hne].
  - rewrite (validateUpstreams_empty _ _ Hnil) in Hups.
    injection Hups as _ Hmsgs. by destruct msgs1.
  - destruct (validateUpstreams_Ret _ _ _ _ Hne Hups)
      as (validated & lastUpstream & Hall & Hlast & -> & Hmsgs).
    symmetry in Hmsgs. apply app_eq_nil in Hmsgs as [_ Hmsgs]. eauto 10.
Qed.

Lemma validated_well_formed (given validated : list AuthDelegateUpstream) :
  Forall2 validated_as given validated →
  concat (messages_of <$> validated) = [] →
  Forall well_formed validated.
Proof.
  induction 1 as [|u v given validated (parsed & _ & ->) _ IH]; simpl;
    [constructor|].
  intros Hnil. apply app_eq_nil in Hnil as [Hv Hrest].
  constructor; [|by apply IH].
  destruct (messages_of_nil (with_parsed u parsed) parsed eq_refl Hv) as [Hs Hn].
  split; [by exists parsed | exact Hn].
Qed.

Lemma Validate_success_well_formed (given opts : AuthDelegateOptions) :
  Validate given = Ret (opts, None) →
  Forall2 validated_as (Upstreams given) (Upstreams opts) ∧
  Forall well_formed (Upstreams opts).
Proof.
  intros Hv. apply Validate_success in Hv
    as (validated & lastUpstream & _ & Hall & _ & -> & Hmsgs). simpl.
  split; [exact Hall|]. apply (validated_well_formed _ _ Hall).
  unfold upstreams_messages in Hmsgs. by apply app_eq_nil in Hmsgs as [? _].
Qed.

End Validation.

(** * The claims *)

Section Claims.
Context `{GoRuntime}.

(** C1. For a validated configuration the dispatcher has one rule per
    upstream, in the order of the upstreams, and every request that some
    rule accepts is served through the accepting rule of lowest index; so
    of a header rule and a cookie rule that both accept, the later one is
    never chosen. *)
Theorem dispatch_first_match (given opts : AuthDelegateOptions) :
  Validate given = Ret (opts, None) →
  ∃ h,
    NewAuthDelegate opts = Ret h ∧
    Forall2 rule_of (Upstreams opts) (upstreams h) ∧
    ∀ req : http.Request,
      (∀ i d, upstreams h !! i = Some d → accepts d req = true →
         (∀ j d', (j < i)%nat → upstreams h !! j = Some d' →
                  accepts d' req = false) →
         ServeHTTP h req = httputil.ServeHTTP (handler d) req) ∧
      (∀ i j di dj,
         (i < j)%nat → upstreams h !! i = Some di → upstreams h !! j = Some dj →
         accepts di req = true → accepts dj req = true →
         ∃ k dk,
           (k ≤ i)%nat ∧ upstreams h !! k = Some dk ∧ accepts dk req = true ∧
           (∀ m d', (m < k)%nat → upstreams h !! m = Some d' →
                    accepts d' req = false) ∧
           ServeHTTP h req = httputil.ServeHTTP (handler dk) req).
Proof.
  intros Hvalid. apply Validate_success_well_formed in Hvalid as [_ Hwf].
  destruct (NewAuthDelegate_range_total (Upstreams opts) (mkHandler [])) as [h Hh].
  { eapply Forall_impl; [exact Hwf|]. intros u [(parsed & -> & _) _]. eauto. }
  exists h. split; [exact Hh|]. split; [by apply NewAuthDelegate_Ret|].
  intros req. split.
  - intros i d Hi Hd Hbefore.
    destruct (ServeHTTP_range_lowest _ _ _ _ Hi Hd)
      as (k & dk & Hk & Hlk & Hdk & _ & Hserve).
    destruct (decide (k = i)) as [->|Hne].
    + rewrite Hi in Hlk. injection Hlk as <-. exact Hserve.
    + assert (Hlt : (k < i)%nat) by lia.
      specialize (Hbefore _ _ Hlt Hlk). congruence.
  - intros i j di dj _ Hi _ Hdi _. exact (ServeHTTP_range_lowest _ _ _ _ Hi Hdi).
Qed.

(** C2, as the code has it. A rule with a header name accepts a request
    exactly when the first value the request carries under that name is
    not the empty string; a header that is present with an empty first
    value does not select the rule. *)
Theorem header_rule_accepts (d : authDelegate) (req : http.Request) :
  headerName d ≠ "" →
  (accepts d req = true ↔
   ∃ v vs, http.Header_ req !! CanonicalMIMEHeaderKey (headerName d)
           = Some (v :: vs) ∧ v ≠ "") ∧
  (accepts d req = true → carries_header req (headerName d)).
Proof.
  intros Hname. apply str_ne_true in Hname.
  assert (Hiff : accepts d req = true ↔
    ∃ v vs, http.Header_ req !! CanonicalMIMEHeaderKey (headerName d)
            = Some (v :: vs) ∧ v ≠ "").
  { unfold accepts. rewrite Hname, str_ne_true. unfold Header_Get.
    destruct (http.Header_ req !! _) as [[|v vs]|]; split.
    - congruence.
    - intros (? & ? & Heq & _). discriminate.
    - eauto.
    - intros (? & ? & [= <- <-] & ?). done.
    - congruence.
    - intros (? & ? & Heq & _). discriminate. }
  split; [exact Hiff|]. rewrite Hiff. intros (v & vs & Hl & _).
  unfold carries_header. by rewrite Hl.
Qed.

(** C3, as the code has it. A forwarded request has gone through the
    first rule that accepts it, and its URL is the parsed URL of that
    rule's upstream in full: scheme and host, and also path and query,
    which replace those of the inbound request. Method and body are
    those of the inbound request. *)
Theorem forwarded_request (opts : AuthDelegateOptions) (h : authDelegateHandler)
    (req outreq : http.Request) :
  NewAuthDelegate opts = Ret h →
  ServeHTTP h req = http.RoundTrip outreq →
  ∃ i upstream d target,
    Upstreams opts !! i = Some upstream ∧ upstreams h !! i = Some d ∧
    accepts d req = true ∧
    (∀ m d', (m < i)%nat → upstreams h !! m = Some d' → accepts d' req = false) ∧
    parsedURL upstream = Some target ∧
    http.URL outreq = target ∧
    url.Path (http.URL outreq) = url.Path target ∧
    url.RawQuery (http.URL outreq) = url.RawQuery target ∧
    http.Method outreq = http.Method req ∧
    http.Body outreq = http.Body req.
Proof.
  intros Hh Hserve.
  destruct (ServeHTTP_RoundTrip _ _ _ _ Hh Hserve)
    as (i & upstream & d & target & Hup & Hi & Hd & Hfirst & Ht & ->).
  destruct (authDelegateDirector_fields target req) as (Hu & Hm & Hb & _ & _).
  exists i, upstream, d, target. rewrite Hu.
  repeat (split; [done|]). exact Hb.
Qed.


(** C5. A request that no rule accepts is answered through [http.Error]
    with the text "unauthorized request" and the status 401, and nothing
    is sent upstream; this is the only case with that answer. *)
Theorem no_match_unauthorized (h : authDelegateHandler) (req : http.Request) :
  (Forall (λ d, accepts d req = false) (upstreams h) →
   ServeHTTP h req = http.Error "unauthorized request" 401 ∧
   http.StatusUnauthorized = 401%Z ∧
   ∀ outreq, ServeHTTP h req ≠ http.RoundTrip outreq) ∧
  (∀ text code, ServeHTTP h req = http.Error text code →
                Forall (λ d, accepts d req = false) (upstreams h)).
Proof.
  unfold ServeHTTP. split.
  - intros Hall. rewrite (ServeHTTP_range_none _ _ Hall).
    split; [reflexivity|]. split; [reflexivity | discriminate].
  - intros text code Herr.
    destruct (ServeHTTP_range_cases (upstreams h) req)
      as [[Hall _] | (before & d & after & _ & _ & _ & Hs)]; [exact Hall|].
    rewrite Hs in Herr. discriminate.
Qed.

(** C6, as the code has it. Let every upstream URL parse and the port
    and TLS checks return. If exactly one upstream is a default and its
    URL differs from the URL of the last upstream, validation fails and
    its last message is "upstream without header_name or cookie_name not
    last in upstream list: " followed by the URL of that default. If two
    or more upstreams are defaults, validation fails and its last message
    is "multiple upstreams without header_name or cookie_name", which
    names no URL. *)
Theorem default_placement (opts : AuthDelegateOptions) (msgs1 : list string)
    (lastGiven : AuthDelegateUpstream) :
  Forall parses (Upstreams opts) →
  validateSsl opts (validatePort opts []) = Ret msgs1 →
  last (Upstreams opts) = Some lastGiven →
  (∀ d, filter is_default (Upstreams opts) = [d] → URL d ≠ URL lastGiven →
     ∃ opts' msgs,
       Validate opts = Ret (opts', Some (optionErrors msgs)) ∧
       last msgs =
       Some ("upstream without header_name or cookie_name not last in upstream list: "
             +:+ URL d)) ∧
  ((2 ≤ length (filter is_default (Upstreams opts)))%nat →
     ∃ opts' msgs,
       Validate opts = Ret (opts', Some (optionErrors msgs)) ∧
       last msgs = Some "multiple upstreams without header_name or cookie_name").
Proof.
  intros Hparses Hssl Hlast.
  assert (Hne : Upstreams opts ≠ []) by (intros Hnil; by rewrite Hnil in Hlast).
  destruct (validateUpstreams_total opts msgs1 Hne Hparses)
    as (validated & lastUpstream & Hall & Hlv & Hups).
  destruct (Forall2_validated_last _ _ Hall Hne)
    as (lastGiven' & lastUpstream' & Hlg & Hlv' & (parsed & _ & Hp)).
  assert (lastGiven' = lastGiven) as -> by congruence.
  assert (lastUpstream' = lastUpstream) as -> by congruence.
  assert (Hurl : URL lastUpstream = URL lastGiven) by (by rewrite Hp).
  assert (Hfail : ∀ front m,
    upstreams_messages (Upstreams opts) validated lastUpstream = front ++ [m] →
    ∃ opts' msgs, Validate opts = Ret (opts', Some (optionErrors msgs)) ∧
                  last msgs = Some m).
  { intros front m Hm. eexists _, (msgs1 ++ front ++ [m]).
    split; [|by rewrite !app_assoc, last_snoc].
    apply Validate_Ret. exists msgs1, (msgs1 ++ front ++ [m]).
    split; [exact Hssl|]. split; [by rewrite Hups, Hm|].
    symmetry. apply error_of_Some. rewrite !app_assoc. by destruct (_ ++ front). }
  unfold upstreams_messages in Hfail. split.
  - intros d Hd Hdiff. eapply Hfail. rewrite Hd. simpl. rewrite Hurl.
    apply str_ne_true in Hdiff. rewrite Hdiff. by rewrite !app_assoc.
  - intros Hmany. eapply Hfail.
    destruct (filter is_default (Upstreams opts)) as [|d [|d' rest]];
      simpl in Hmany; [lia | lia |]. simpl. by rewrite !app_assoc.
Qed.

(** C7, as the code has it. Let every upstream URL parse and the port
    and TLS checks return. The messages of a validation are, in this
    order: those of the port and TLS checks, those of each upstream, the
    report of the repeated cookie names, the report of the repeated
    header names, the message about defaults. A report is present
    exactly when some non-empty name of its kind occurs on two upstreams
    or more; it then reads "repeated header names: " (or "repeated cookie
    names: ") followed by these names, each once, joined by ", ", in the
    order in which the runtime visits the map of counts, which need not
    be sorted. The empty name is never among them. Validation fails
    whenever a report is present. *)
Theorem repeated_names_reported (opts : AuthDelegateOptions) (msgs1 : list string) :
  Forall parses (Upstreams opts) →
  Upstreams opts ≠ [] →
  validateSsl opts (validatePort opts []) = Ret msgs1 →
  ∃ validated lastUpstream cookies headers,
    NoDup cookies ∧
    (∀ name, name ∈ cookies ↔ repeated_in (CookieName <$> Upstreams opts) name) ∧
    NoDup headers ∧
    (∀ name, name ∈ headers ↔ repeated_in (HeaderName <$> Upstreams opts) name) ∧
    ("" ∉ cookies) ∧ ("" ∉ headers) ∧
    let msgs :=
      msgs1 ++ concat (messages_of <$> validated) ++
      report "cookie names" cookies ++ report "header names" headers ++
      default_messages (URL <$> filter is_default (Upstreams opts)) lastUpstream in
    Validate opts =
      Ret (mkOptions (Port opts) (SslCert opts) (SslKey opts) validated,
           error_of msgs) ∧
    (cookies ≠ [] ∨ headers ≠ [] → error_of msgs = Some (optionErrors msgs)).
Proof.
  intros Hparses Hne Hssl.
  destruct (validateUpstreams_total opts msgs1 Hne Hparses)
    as (validated & lastUpstream & Hall & Hlv & Hups).
  destruct (repeatedNames_spec "cookie names" (CookieName <$> Upstreams opts))
    as [Hcd Hc].
  destruct (repeatedNames_spec "header names" (HeaderName <$> Upstreams opts))
    as [Hhd Hh].
  exists validated, lastUpstream,
    (repeatedNames "cookie names" (count_names (CookieName <$> Upstreams opts) ∅)),
    (repeatedNames "header names" (count_names (HeaderName <$> Upstreams opts) ∅)).
  split; [exact Hcd|]. split; [exact Hc|]. split; [exact Hhd|]. split; [exact Hh|].
  split; [rewrite Hc; by intros [? _]|]. split; [rewrite Hh; by intros [? _]|].
  simpl. split.
  - apply Validate_Ret. eexists msgs1, _. split; [exact Hssl|].
    split; [exact Hups | reflexivity].
  - intros Hsome. apply error_of_Some. intros Hnil.
    apply app_eq_nil in Hnil as [_ Hnil]. apply app_eq_nil in Hnil as [_ Hnil].
    apply app_eq_nil in Hnil as [Hcn Hnil]. apply app_eq_nil in Hnil as [Hhn _].
    unfold report in Hcn, Hhn.
    destruct Hsome as [Hs|Hs]; [destruct (repeatedNames "cookie names" _)
                               |destruct (repeatedNames "header names" _)]; done.
Qed.

(** C8, as the code has it. With no upstream, [validateUpstreams] adds
    the one message "no upstreams defined" and checks nothing else;
    [Validate] never succeeds. Whenever the port and TLS checks return,
    it fails with their messages followed by that one, which is the
    whole error only when port and TLS are in order, and
    [NewAuthDelegateOptionsFromJSON] returns the error and no options.
    When the TLS check panics, so does [Validate], and no error is
    returned at all. *)
Theorem no_upstreams (opts : AuthDelegateOptions) :
  Upstreams opts = [] →
  (∀ msgs, validateUpstreams opts msgs = Ret (opts, msgs ++ ["no upstreams defined"])) ∧
  (∀ opts', Validate opts ≠ Ret (opts', None)) ∧
  (∀ msgs1, validateSsl opts (validatePort opts []) = Ret msgs1 →
     Validate opts =
       Ret (opts, Some (optionErrors (msgs1 ++ ["no upstreams defined"]))) ∧
     ∀ config, json_Unmarshal config = inl opts →
       NewAuthDelegateOptionsFromJSON config =
       Ret (None, Some (optionErrors (msgs1 ++ ["no upstreams defined"])))) ∧
  ((0 < Port opts)%Z → SslCert opts = "" → SslKey opts = "" →
     Validate opts =
       Ret (opts, Some ("Invalid options:" +:+ newline +:+ "  no upstreams defined"))) ∧
  (∀ config produced err,
     json_Unmarshal config = inl opts →
     NewAuthDelegateOptionsFromJSON config = Ret (produced, err) →
     produced = None ∧ is_Some err) ∧
  (∀ reason, validateSsl opts (validatePort opts []) = Panic reason →
     Validate opts = Panic reason).
Proof.
  intros Hnil.
  assert (Hv : ∀ msgs1, validateSsl opts (validatePort opts []) = Ret msgs1 →
     Validate opts =
       Ret (opts, Some (optionErrors (msgs1 ++ ["no upstreams defined"])))).
  { intros msgs1 Hssl. apply Validate_Ret. eexists msgs1, _.
    split; [exact Hssl|]. split; [by apply validateUpstreams_empty|].
    symmetry. apply error_of_Some. by destruct msgs1. }
  assert (Hnever : ∀ opts', Validate opts ≠ Ret (opts', None)).
  { intros opts' Hok. apply Validate_success in Hok as (? & ? & Hne & _). done. }
  split; [intros msgs; by apply validateUpstreams_empty|].
  split; [exact Hnever|]. split; [|split; [|split]].
  - intros msgs1 Hssl. split; [by apply Hv|].
    intros config Hjson. unfold NewAuthDelegateOptionsFromJSON.
    by rewrite Hjson, (Hv _ Hssl).
  - intros Hport Hcert Hkey. apply (Hv []).
    unfold validateSsl, validatePort. rewrite Hcert, Hkey.
    by destruct (Z.leb_spec (Port opts) 0); [lia|].
  - intros config produced err Hjson. unfold NewAuthDelegateOptionsFromJSON.
    rewrite Hjson. destruct (Validate opts) as [[opts' [e|]]|] eqn:Hval; simpl.
    + intros [= <- <-]. eauto.
    + by destruct (Hnever opts').
    + discriminate.
  - intros reason Hssl. unfold Validate. by rewrite Hssl.
Qed.

(** C9. When [url.Parse] rejects the URL of an upstream,
    [validateUpstream] first records "upstream URL failed to parse" and
    the error, and stores nil as the parsed URL; reading the scheme then
    panics with a nil dereference. So [validateUpstreams] and [Validate]
    panic on every configuration with such an upstream, and return
    neither options nor messages. *)
Theorem unparsed_upstream_panics (opts : AuthDelegateOptions)
    (upstream : AuthDelegateUpstream) (err : string) (msgs : list string) :
  url_Parse (URL upstream) = inr err →
  validateUpstream_parse upstream msgs =
    (mkUpstream (URL upstream) (HeaderName upstream) (CookieName upstream) None,
     msgs ++ ["upstream URL failed to parse" +:+ err]) ∧
  validateUpstream upstream msgs = Panic nil_dereference ∧
  (upstream ∈ Upstreams opts →
     (∀ msgs', validateUpstreams opts msgs' = Panic nil_dereference) ∧
     Validate opts = Panic nil_dereference ∧
     ∀ result, Validate opts ≠ Ret result).
Proof.
  intros Herr. split; [unfold validateUpstream_parse; by rewrite Herr|].
  split; [by eapply validateUpstream_unparsed|].
  intros Hin.
  assert (Hups : ∀ msgs', validateUpstreams opts msgs' = Panic nil_dereference).
  { intros msgs'. apply validateUpstreams_panic, Exists_exists.
    exists upstream. eauto. }
  assert (Hval : Validate opts = Panic nil_dereference).
  { unfold Validate.
    destruct (validateSsl opts (validatePort opts [])) as [msgs1|reason] eqn:Hssl;
      simpl.
    - by rewrite Hups.
    - by rewrite (validateSsl_Panic _ _ _ Hssl). }
  split; [exact Hups|]. split; [exact Hval|]. intros result. by rewrite Hval.
Qed.

(** C10. When [Validate] returns no error, every upstream of the options
    it leaves holds a parsed URL whose scheme is "http" or "https" and
    has at most one of its two names; URL, header name and cookie name
    are those that were given. [NewAuthDelegate] then returns a handler
    with one rule per upstream, in order, each with those names and with
    a proxy that sends every request to that parsed URL. Neither
    [NewAuthDelegate] nor [ServeHTTP] returns options or a handler
    changed: nothing is modified afterwards. *)
Theorem validated_invariant (given opts : AuthDelegateOptions) :
  Validate given = Ret (opts, None) →
  Forall well_formed (Upstreams opts) ∧
  Forall2 (λ u v, URL v = URL u ∧ HeaderName v = HeaderName u ∧
                  CookieName v = CookieName u)
    (Upstreams given) (Upstreams opts) ∧
  ∃ h,
    NewAuthDelegate opts = Ret h ∧
    Forall2 rule_of (Upstreams opts) (upstreams h) ∧
    Forall (λ d,
      (headerName d = "" ∨ cookieName d = "") ∧
      ∃ target,
        handler d = proxy_to target ∧
        (url.Scheme target = "http" ∨ url.Scheme target = "https") ∧
        ∀ req, http.URL (httputil.Director (handler d) req) = target)
      (upstreams h).
Proof.
  intros Hvalid. apply Validate_success_well_formed in Hvalid as [Hall Hwf].
  split; [exact Hwf|]. split.
  { eapply Forall2_impl; [exact Hall|]. intros u v Huv.
    apply validated_as_fields in Huv. tauto. }
  destruct (NewAuthDelegate_range_total (Upstreams opts) (mkHandler [])) as [h Hh].
  { eapply Forall_impl; [exact Hwf|]. intros u [(parsed & -> & _) _]. eauto. }
  exists h. split; [exact Hh|]. apply NewAuthDelegate_Ret in Hh.
  split; [exact Hh|]. apply Forall_lookup. intros i d Hd.
  destruct (Forall2_lookup_r _ _ _ _ _ Hh Hd)
    as (u & Hu & Hn & Hc & target & Ht & Hproxy).
  rewrite Forall_lookup in Hwf. destruct (Hwf _ _ Hu) as [(parsed & Hp & Hs) Hnames].
  rewrite Hn, Hc. split; [exact Hnames|]. exists target.
  assert (parsed = target) as -> by congruence.
  split; [exact Hproxy|]. split; [exact Hs|]. intros req. rewrite Hproxy.
  apply authDelegateDirector_fields.
Qed.

End Claims.

(** * Further properties of the dispatcher *)

Section MoreDispatch.
Context `{GoRuntime}.

Lemma accepts_default (d : authDelegate) (req : http.Request) :
  headerName d = "" → cookieName d = "" → accepts d req = true.
Proof. intros Hh Hc. unfold accepts. by rewrite Hh, Hc. Qed.

(** Acceptance looks at the headers of the request and at nothing else
    of it. *)
Lemma accepts_headers (d : authDelegate) (req req' : http.Request) :
  http.Header_ req = http.Header_ req' → accepts d req = accepts d req'.
Proof. intros Heq. unfold accepts, Request_Cookie. by rewrite Heq. Qed.

Lemma ServeHTTP_range_app_accept (before after : list authDelegate)
    (d : authDelegate) (req : http.Request) :
  accepts d req = true →
  ServeHTTP_range (before ++ d :: after) req = ServeHTTP_range (before ++ [d]) req.
Proof.
  intros Hd. induction before as [|d' before IH]; simpl.
  - by rewrite Hd.
  - by rewrite IH.
Qed.

Lemma proxy_to_set_URL (target u : url.URL) (req : http.Request) :
  httputil.Director (proxy_to target) (http.set_URL u req)
  = httputil.Director (proxy_to target) req.
Proof.
  simpl. unfold authDelegateDirector, httputil.singleHostDirector. simpl.
  by destruct (String.eqb _ "").
Qed.

Lemma ServeHTTP_range_set_URL (given : list AuthDelegateUpstream)
    (rules : list authDelegate) (u : url.URL) (req : http.Request) :
  Forall2 rule_of given rules →
  ServeHTTP_range rules (http.set_URL u req) = ServeHTTP_range rules req.
Proof.
  induction 1 as [|upstream d given rules (_ & _ & target & _ & Hp) _ IH]; simpl;
    [reflexivity|].
  rewrite (accepts_headers d (http.set_URL u req) req) by reflexivity.
  destruct (accepts d req); [|exact IH].
  unfold httputil.ServeHTTP. rewrite Hp. f_equal. apply proxy_to_set_URL.
Qed.

(** X1. When a rule of the handler is a default rule (neither name), no
    request is answered with [http.Error]: a request that the rules before
    the default reject is served through the proxy of the default. *)
Theorem default_rule_serves (h : authDelegateHandler) (req : http.Request)
    (before after : list authDelegate) (d : authDelegate) :
  upstreams h = before ++ d :: after →
  headerName d = "" → cookieName d = "" →
  (∀ text code, ServeHTTP h req ≠ http.Error text code) ∧
  (Forall (λ d', accepts d' req = false) before →
   ServeHTTP h req = httputil.ServeHTTP (handler d) req).
Proof.
  intros Hrules Hh Hc. pose proof (accepts_default d req Hh Hc) as Hd.
  unfold ServeHTTP. rewrite Hrules. split.
  - intros text code Herr.
    destruct (ServeHTTP_range_cases (before ++ d :: after) req)
      as [[Hall _] | (? & ? & ? & _ & _ & _ & Hs)].
    + apply Forall_app in Hall as [_ Hall]. inversion Hall; congruence.
    + rewrite Hs in Herr. discriminate.
  - intros Hbefore. by apply ServeHTTP_range_first.
Qed.

(** X2. The rules listed after a default rule are never used: the
    handler serves every request as the handler without them does. *)
Theorem rules_after_default_unused (before after : list authDelegate)
    (d : authDelegate) (req : http.Request) :
  headerName d = "" → cookieName d = "" →
  ServeHTTP (mkHandler (before ++ d :: after)) req
  = ServeHTTP (mkHandler (before ++ [d])) req.
Proof.
  intros Hh Hc. unfold ServeHTTP. simpl.
  apply ServeHTTP_range_app_accept, accepts_default; assumption.
Qed.

(** X3. The choice of the rule depends on the headers of the request
    only: for two requests with the same headers, every rule accepts
    both or neither, the handler answers both with the same error or
    serves both through the proxy of the same rule. *)
Theorem dispatch_depends_on_headers (h : authDelegateHandler)
    (req req' : http.Request) :
  http.Header_ req = http.Header_ req' →
  (∀ d, accepts d req = accepts d req') ∧
  (∀ text code, ServeHTTP h req = http.Error text code →
                ServeHTTP h req' = http.Error text code) ∧
  (∀ before d after,
     upstreams h = before ++ d :: after →
     Forall (λ d', accepts d' req = false) before → accepts d req = true →
     ServeHTTP h req = httputil.ServeHTTP (handler d) req ∧
     ServeHTTP h req' = httputil.ServeHTTP (handler d) req').
Proof.
  intros Hheaders.
  assert (Hacc : ∀ d, accepts d req = accepts d req')
    by (intros d; by apply accepts_headers).
  split; [exact Hacc|]. unfold ServeHTTP. split.
  - intros text code Herr.
    destruct (ServeHTTP_range_cases (upstreams h) req)
      as [[Hall Hsame] | (? & ? & ? & _ & _ & _ & Hs)].
    + rewrite Hsame in Herr. rewrite <- Herr. apply ServeHTTP_range_none.
      eapply Forall_impl; [exact Hall|]. intros d Hd. by rewrite <- Hacc.
    + rewrite Hs in Herr. discriminate.
  - intros before d after -> Hbefore Hd.
    split; [by apply ServeHTTP_range_first|].
    apply ServeHTTP_range_first; [|by rewrite <- Hacc].
    eapply Forall_impl; [exact Hbefore|]. intros d' Hd'. by rewrite <- Hacc.
Qed.

(** X4. When every upstream holds a parsed URL, [NewAuthDelegate]
    returns a handler with one rule for each upstream, in the order of
    the upstreams: the i-th rule has the header name and the cookie name
    of the i-th upstream, and its proxy is the one built for the parsed
    URL of that upstream. *)
Theorem NewAuthDelegate_builds_rules (opts : AuthDelegateOptions) :
  Forall (λ upstream, is_Some (parsedURL upstream)) (Upstreams opts) →
  ∃ h, NewAuthDelegate opts = Ret h ∧
       length (upstreams h) = length (Upstreams opts) ∧
       ∀ i upstream, Upstreams opts !! i = Some upstream →
         ∃ d target,
           upstreams h !! i = Some d ∧
           headerName d = HeaderName upstream ∧
           cookieName d = CookieName upstream ∧
           parsedURL upstream = Some target ∧
           handler d = proxy_to target.
Proof.
  intros Hall.
  destruct (NewAuthDelegate_range_total _ (mkHandler []) Hall) as [h Hh].
  exists h. split; [exact Hh|]. apply NewAuthDelegate_Ret in Hh.
  split; [symmetry; by eapply Forall2_length|].
  intros i upstream Hi.
  destruct (Forall2_lookup_l _ _ _ _ _ Hh Hi)
    as (d & Hd & Hhn & Hcn & target & Ht & Hp).
  by exists d, target.
Qed.

(** X5. What a handler built by [NewAuthDelegate] does with a request
    does not depend on the URL of the request: the rule is chosen by
    the headers, and the forwarded request takes the URL of the
    upstream. *)
Theorem inbound_url_ignored (opts : AuthDelegateOptions) (h : authDelegateHandler)
    (u1 u2 : url.URL) (req : http.Request) :
  NewAuthDelegate opts = Ret h →
  ServeHTTP h (http.set_URL u1 req) = ServeHTTP h (http.set_URL u2 req).
Proof.
  intros Hh. apply NewAuthDelegate_Ret in Hh. unfold ServeHTTP.
  by rewrite !(ServeHTTP_range_set_URL _ _ _ _ Hh).
Qed.

(** X6. Two hops. When a request with a non-empty request URI has been
    forwarded by one handler, and a second handler forwards a request
    that carries the X-Original-URI values of the first forwarded
    request, the second forwarded request carries them too, as the
    second director leaves it: the first value is not empty, and it is
    the request URI seen at the first hop when the first inbound request
    had no X-Original-URI or an empty one. *)
Theorem second_hop_keeps_original_uri (opts1 opts2 : AuthDelegateOptions)
    (h1 h2 : authDelegateHandler) (req out1 req2 out2 : http.Request) :
  NewAuthDelegate opts1 = Ret h1 →
  NewAuthDelegate opts2 = Ret h2 →
  http.RequestURI req ≠ "" →
  ServeHTTP h1 req = http.RoundTrip out1 →
  header_values req2 "X-Original-URI" = header_values out1 "X-Original-URI" →
  ServeHTTP h2 req2 = http.RoundTrip out2 →
  header_values out2 "X-Original-URI" = header_values out1 "X-Original-URI" ∧
  Header_Get (http.Header_ out2) "X-Original-URI" ≠ "" ∧
  (Header_Get (http.Header_ req) "X-Original-URI" = "" →
   header_values out2 "X-Original-URI" = [http.RequestURI req]).
Proof.
  intros Hh1 Hh2 Huri Hs1 Hvalues Hs2.
  destruct (ServeHTTP_RoundTrip _ _ _ _ Hh1 Hs1)
    as (? & ? & ? & t1 & _ & _ & _ & _ & _ & ->).
  destruct (ServeHTTP_RoundTrip _ _ _ _ Hh2 Hs2)
    as (? & ? & ? & t2 & _ & _ & _ & _ & _ & ->).
  destruct (authDelegateDirector_fields t1 req) as (_ & _ & _ & _ & H1).
  destruct (authDelegateDirector_fields t2 req2) as (_ & _ & _ & _ & H2).
  set (out1 := httputil.Director (proxy_to t1) req) in *.
  set (out2 := httputil.Director (proxy_to t2) req2) in *.
  assert (Hget : ∀ r, Header_Get (http.Header_ r) "X-Original-URI"
                      = hd "" (header_values r "X-Original-URI")).
  { intros r. unfold Header_Get, header_values.
    by destruct (http.Header_ r !! _) as [[|v vs]|]. }
  assert (Hout1 : header_values out1 "X-Original-URI"
                  = if String.eqb (Header_Get (http.Header_ req) "X-Original-URI") ""
                    then [http.RequestURI req]
                    else header_values req "X-Original-URI").
  { unfold header_values at 1. rewrite H1.
    destruct (String.eqb _ "") eqn:He; [|reflexivity].
    unfold Header_Set. by rewrite lookup_insert_eq. }
  assert (Hne : hd "" (header_values out1 "X-Original-URI") ≠ "").
  { rewrite Hout1.
    destruct (String.eqb_spec (Header_Get (http.Header_ req) "X-Original-URI") "")
      as [He|He]; [exact Huri|]. by rewrite <- Hget. }
  assert (Hsame : header_values out2 "X-Original-URI"
                  = header_values out1 "X-Original-URI").
  { rewrite <- Hvalues. unfold header_values at 1. rewrite H2.
    destruct (String.eqb_spec (Header_Get (http.Header_ req2) "X-Original-URI") "")
      as [He|He]; [|reflexivity].
    rewrite Hget, Hvalues in He. by destruct Hne. }
  split; [exact Hsame|]. split; [by rewrite Hget, Hsame|].
  intros Hempty. rewrite Hsame, Hout1, Hempty. reflexivity.
Qed.

End MoreDispatch.

(** * Further properties of the validator *)

Section MoreValidation.
Context `{GoRuntime}.

(** ** The checks do not depend on the messages collected before *)

Lemma validatePort_app (opts : AuthDelegateOptions) (msgs : list string) :
  validatePort opts msgs = msgs ++ validatePort opts [].
Proof. unfold validatePort. destruct (_ <=? _)%Z; by rewrite ?app_nil_r. Qed.

Lemma validateSsl_app (opts : AuthDelegateOptions) (msgs : list string) :
  validateSsl opts msgs = validateSsl opts [] ≫= λ added, Ret (msgs ++ added).
Proof.
  unfold validateSsl, checkExistenceAndPermission.
  destruct (SslCert opts !=? ""), (SslKey opts !=? ""); simpl;
    rewrite ?app_nil_r; try reflexivity;
    repeat match goal with
      | |- context [os_Stat ?p] => destruct (os_Stat p) as [[]| | |]; simpl
      end;
    rewrite <- ?app_assoc, ?app_nil_r; reflexivity.
Qed.

Lemma validateUpstream_app (upstream : AuthDelegateUpstream) (msgs m : list string) :
  validateUpstream upstream (msgs ++ m)
  = validateUpstream upstream m ≫= λ '(u, added), Ret (u, msgs ++ added).
Proof.
  destruct (url_Parse (URL upstream)) as [parsed|err] eqn:Hparse.
  - rewrite !(validateUpstream_parsed _ _ _ Hparse). simpl. by rewrite app_assoc.
  - by rewrite !(validateUpstream_unparsed _ _ _ Hparse).
Qed.

Lemma validateUpstreams_loop_app (rest : list AuthDelegateUpstream)
    (v : list AuthDelegateUpstream) (msgs m d : list string) (c h : gmap string Z) :
  validateUpstreams_loop rest (mkScan v (msgs ++ m) d c h)
  = validateUpstreams_loop rest (mkScan v m d c h) ≫= λ st,
      Ret (mkScan (visited st) (msgs ++ scan_msgs st) (defaultUpstreams st)
             (cookieNames st) (headerNames st)).
Proof.
  revert v m d c h. induction rest as [|current rest IH]; intros v m d c h; simpl;
    [reflexivity|].
  rewrite validateUpstream_app.
  destruct (validateUpstream current m) as [[u added]|]; simpl; [|reflexivity].
  apply IH.
Qed.

Lemma validateUpstreams_app (opts : AuthDelegateOptions) (msgs : list string) :
  validateUpstreams opts msgs
  = validateUpstreams opts [] ≫= λ '(o, added), Ret (o, msgs ++ added).
Proof.
  unfold validateUpstreams. destruct (length (Upstreams opts) =? 0)%nat;
    [reflexivity|].
  rewrite <- (app_nil_r msgs) at 1. rewrite validateUpstreams_loop_app.
  destruct (validateUpstreams_loop (Upstreams opts) (mkScan [] [] [] ∅ ∅))
    as [st|]; simpl; [|reflexivity].
  destruct (last (visited st)); simpl; [|reflexivity].
  rewrite !validateNameCounts_eq, !validateDefaultUpstreams_eq.
  by rewrite <- !app_assoc.
Qed.

Lemma Validate_composed (opts : AuthDelegateOptions) :
  Validate opts
  = validateSsl opts [] ≫= λ ssl,
      validateUpstreams opts [] ≫= λ '(o, ups),
        Ret (o, error_of (validatePort opts [] ++ ssl ++ ups)).
Proof.
  unfold Validate. rewrite validateSsl_app.
  destruct (validateSsl opts []) as [ssl|]; simpl; [|reflexivity].
  rewrite validateUpstreams_app.
  destruct (validateUpstreams opts []) as [[o ups]|]; simpl; [|reflexivity].
  by rewrite <- app_assoc.
Qed.

(** ** The TLS material *)

Lemma validateSsl_nil (opts : AuthDelegateOptions) :
  validateSsl opts [] = Ret [] ↔ tls_ok opts.
Proof.
  unfold validateSsl, checkExistenceAndPermission, tls_ok.
  destruct (SslCert opts !=? "") eqn:Hc, (SslKey opts !=? "") eqn:Hk; simpl;
    first [apply str_ne_true in Hc | apply str_ne_false in Hc];
    first [apply str_ne_true in Hk | apply str_ne_false in Hk];
    repeat match goal with
      | |- context [os_Stat ?p] => destruct (os_Stat p) as [[]| | |]; simpl
      end;
    intuition congruence.
Qed.

Lemma validateSsl_panics (opts : AuthDelegateOptions) (msgs : list string) :
  validateSsl opts msgs = Panic nil_dereference ↔ tls_stat_fails opts.
Proof.
  unfold validateSsl, checkExistenceAndPermission, tls_stat_fails.
  destruct (SslCert opts !=? "") eqn:Hc, (SslKey opts !=? "") eqn:Hk; simpl;
    first [apply str_ne_true in Hc | apply str_ne_false in Hc];
    first [apply str_ne_true in Hk | apply str_ne_false in Hk];
    repeat match goal with
      | |- context [os_Stat ?p] => destruct (os_Stat p) as [[]| | |] eqn:?; simpl
      end;
    intuition congruence.
Qed.

(** ** The options that come back *)

Lemma parses_or_not (given : list AuthDelegateUpstream) :
  Forall parses given ∨
  Exists (λ upstream, ∃ err, url_Parse (URL upstream) = inr err) given.
Proof.
  induction given as [|u given [IH|IH]].
  - left. constructor.
  - destruct (url_Parse (URL u)) as [parsed|err] eqn:Hu.
    + left. constructor; [by exists parsed | exact IH].
    + right. left. by exists err.
  - right. by right.
Qed.

Lemma validated_as_store_parsed (given validated : list AuthDelegateUpstream) :
  Forall2 validated_as given validated → validated = store_parsed <$> given.
Proof.
  induction 1 as [|u v given validated (parsed & Hp & ->) _ IH]; simpl;
    [reflexivity|].
  unfold store_parsed at 1. rewrite Hp. by f_equal.
Qed.

Lemma validated_as_parses (given validated : list AuthDelegateUpstream) :
  Forall2 validated_as given validated → Forall parses given.
Proof.
  induction 1 as [|u v given validated (parsed & Hp & _) _ IH]; constructor;
    [by exists parsed | exact IH].
Qed.

Lemma store_parsed_fields (given : list AuthDelegateUpstream) :
  Forall2 same_fields given (store_parsed <$> given).
Proof.
  induction given as [|u given IH]; simpl; constructor; [|exact IH].
  unfold store_parsed, same_fields. by destruct (url_Parse (URL u)).
Qed.

Lemma store_parsed_is_Some (given : list AuthDelegateUpstream) :
  Forall parses given →
  Forall (λ upstream, is_Some (parsedURL upstream)) (store_parsed <$> given).
Proof.
  induction 1 as [|u given [parsed Hp] _ IH]; simpl; constructor; [|exact IH].
  unfold store_parsed. rewrite Hp. simpl. eauto.
Qed.

(** Whatever its error, a validation that returns has parsed every URL
    and gives back the options with the parsed URLs stored. *)
Lemma Validate_options (given opts : AuthDelegateOptions) (err : option string) :
  Validate given = Ret (opts, err) →
  Forall parses (Upstreams given) ∧
  opts = mkOptions (Port given) (SslCert given) (SslKey given)
           (store_parsed <$> Upstreams given).
Proof.
  rewrite Validate_Ret. intros (msgs1 & msgs & _ & Hups & _).
  destruct (decide (Upstreams given = [])) as [Hnil|Hne].
  - rewrite (validateUpstreams_empty _ _ Hnil) in Hups. injection Hups as <- _.
    rewrite Hnil. split; [constructor|]. destruct given; simpl in *. by subst.
  - destruct (validateUpstreams_Ret _ _ _ _ Hne Hups)
      as (validated & ? & Hall & _ & -> & _).
    split; [by eapply validated_as_parses|].
    by rewrite (validated_as_store_parsed _ _ Hall).
Qed.

(** ** Validation reads the URL and the names only *)

Lemma validateUpstream_same_fields (u v : AuthDelegateUpstream) (msgs : list string) :
  same_fields u v → validateUpstream v msgs = validateUpstream u msgs.
Proof.
  intros (Hu & Hh & Hc). unfold validateUpstream, validateUpstream_parse.
  rewrite Hu. destruct (url_Parse (URL u)); simpl; [|reflexivity].
  by rewrite Hh, Hc.
Qed.

Lemma validateUpstreams_loop_same_fields (rest rest' : list AuthDelegateUpstream)
    (st : scan) :
  Forall2 same_fields rest rest' →
  validateUpstreams_loop rest' st = validateUpstreams_loop rest st.
Proof.
  intros Hall. revert st.
  induction Hall as [|u v rest rest' Huv _ IH]; intros st; simpl; [reflexivity|].
  rewrite (validateUpstream_same_fields _ _ _ Huv).
  destruct (validateUpstream u (scan_msgs st)) as [[c m]|]; simpl; [|reflexivity].
  apply IH.
Qed.

Lemma validateUpstreams_same_fields (opts opts' : AuthDelegateOptions)
    (msgs : list string) :
  Port opts' = Port opts → SslCert opts' = SslCert opts →
  SslKey opts' = SslKey opts →
  Forall2 same_fields (Upstreams opts) (Upstreams opts') →
  validateUpstreams opts' msgs = validateUpstreams opts msgs.
Proof.
  intros Hp Hc Hk Hall. unfold validateUpstreams.
  rewrite Hp, Hc, Hk, <- (Forall2_length _ _ _ Hall).
  destruct (length (Upstreams opts) =? 0)%nat eqn:Hlen.
  - apply Nat.eqb_eq, nil_length_inv in Hlen. rewrite Hlen in Hall.
    apply Forall2_nil_inv_l in Hall.
    destruct opts, opts'; simpl in *; by subst.
  - by rewrite (validateUpstreams_loop_same_fields _ _ _ Hall).
Qed.

Lemma Validate_same_fields (opts opts' : AuthDelegateOptions) :
  Port opts' = Port opts → SslCert opts' = SslCert opts →
  SslKey opts' = SslKey opts →
  Forall2 same_fields (Upstreams opts) (Upstreams opts') →
  Validate opts' = Validate opts.
Proof.
  intros Hp Hc Hk Hall. unfold Validate, validatePort, validateSsl.
  rewrite Hp, Hc, Hk.
  assert (Hups : ∀ msgs, validateUpstreams opts' msgs = validateUpstreams opts msgs)
    by (intros msgs; by apply validateUpstreams_same_fields).
  repeat match goal with
    | |- context [if ?b then _ else _] => destruct b; simpl
    | |- context [checkExistenceAndPermission ?p ?n ?m] =>
        destruct (checkExistenceAndPermission p n m); simpl
    end; rewrite ?Hups; reflexivity.
Qed.

(** ** The messages of the upstreams *)

Lemma report_nil (category : string) (names : list string) :
  report category names = [] ↔ names = [].
Proof. destruct names; simpl; split; congruence. Qed.

Lemma name_messages_nil (category : string) (names : list string) :
  name_messages category (count_names names ∅) = [] ↔
  ∀ name, ¬ repeated_in names name.
Proof.
  unfold name_messages. rewrite report_nil.
  destruct (repeatedNames_spec category names) as [_ Hin]. split.
  - intros Hnil name Hrep. apply Hin in Hrep. rewrite Hnil in Hrep.
    by apply elem_of_nil in Hrep.
  - intros Hnone.
    destruct (repeatedNames category (count_names names ∅)) as [|name l];
      [reflexivity|].
    destruct (Hnone name). apply Hin. left.
Qed.

Lemma default_messages_nil (defaults : list string)
    (lastUpstream : AuthDelegateUpstream) :
  default_messages defaults lastUpstream = [] ↔
  defaults = [] ∨ defaults = [URL lastUpstream].
Proof.
  unfold default_messages. destruct defaults as [|d [|d' defaults]].
  - split; [by left | done].
  - destruct (d !=? URL lastUpstream) eqn:Hd.
    + apply str_ne_true in Hd. split; [done | intros [|]; congruence].
    + apply str_ne_false in Hd. subst. split; [by right | done].
  - split; [done | intros [|]; congruence].
Qed.

Lemma messages_of_nil_valid (given validated : list AuthDelegateUpstream) :
  Forall2 validated_as given validated →
  concat (messages_of <$> validated) = [] ↔ Forall valid_upstream given.
Proof.
  induction 1 as [|u v given validated (parsed & Hp & ->) _ IH]; csimpl.
  - split; [constructor | done].
  - split.
    + intros Hnil. apply app_eq_nil in Hnil as [Hv Hrest].
      constructor; [|by apply IH].
      destruct (messages_of_nil (with_parsed u parsed) parsed eq_refl Hv)
        as [Hs Hn]. by exists parsed.
    + intros Hvalid. inversion Hvalid as [|? ? (parsed' & Hp' & Hs & Hn) Hrest];
        subst.
      assert (parsed' = parsed) as -> by congruence.
      rewrite (proj2 IH Hrest), app_nil_r.
      unfold messages_of, upstream_messages. simpl.
      assert (String.eqb (url.Scheme parsed) "" = false) as ->
        by (apply String.eqb_neq; destruct Hs as [-> | ->]; discriminate).
      assert (String.eqb (url.Scheme parsed) "http"
              || String.eqb (url.Scheme parsed) "https" = true) as ->
        by (destruct Hs as [-> | ->]; reflexivity).
      assert ((HeaderName u !=? "") && (CookieName u !=? "") = false) as ->
        by (destruct Hn as [-> | ->]; [reflexivity | by rewrite andb_false_r]).
      reflexivity.
Qed.

Lemma defaults_ok_messages (given validated : list AuthDelegateUpstream)
    (lastUpstream : AuthDelegateUpstream) :
  Forall2 validated_as given validated → given ≠ [] →
  last validated = Some lastUpstream →
  default_messages (URL <$> filter is_default given) lastUpstream = [] ↔
  defaults_ok given.
Proof.
  intros Hall Hne Hlast.
  destruct (Forall2_validated_last _ _ Hall Hne)
    as (lastGiven & lastUpstream' & Hlg & Hlv & (parsed & _ & Hp)).
  assert (lastUpstream' = lastUpstream) as -> by congruence.
  assert (Hurl : URL lastUpstream = URL lastGiven) by (by rewrite Hp).
  rewrite default_messages_nil, Hurl. unfold defaults_ok. split.
  - intros [Hnil | Hone].
    + left. by apply fmap_nil_inv in Hnil.
    + right. destruct (filter is_default given) as [|d [|]]; try discriminate.
      injection Hone as Hd. by exists d, lastGiven.
  - intros [-> | (d & lastGiven' & -> & Hlg' & Hd)]; [by left|].
    right. simpl. congruence.
Qed.

(** The configurations on which [Validate] returns without an error. *)
Lemma Validate_None_iff (given : AuthDelegateOptions) :
  (∃ opts, Validate given = Ret (opts, None)) ↔ valid_config given.
Proof.
  unfold valid_config. split.
  - intros [opts Hv]. rewrite Validate_composed in Hv.
    destruct (validateSsl given []) as [ssl|] eqn:Hssl; [|discriminate].
    simpl in Hv.
    destruct (validateUpstreams given []) as [[o ups]|] eqn:Hups; [|discriminate].
    simpl in Hv. injection Hv as _ Herr. apply error_of_None in Herr.
    apply app_eq_nil in Herr as [Hport Herr].
    apply app_eq_nil in Herr as [-> ->].
    split. { unfold validatePort in Hport.
             by destruct (Z.leb_spec (Port given) 0); [|lia]. }
    split; [by apply validateSsl_nil|].
    destruct (decide (Upstreams given = [])) as [Hnil|Hne];
      [by rewrite (validateUpstreams_empty _ _ Hnil) in Hups|].
    split; [exact Hne|].
    destruct (validateUpstreams_Ret _ _ _ _ Hne Hups)
      as (validated & lastUpstream & Hall & Hlast & _ & Hmsgs).
    simpl in Hmsgs. symmetry in Hmsgs. unfold upstreams_messages in Hmsgs.
    apply app_eq_nil in Hmsgs as [Hm Hmsgs].
    apply app_eq_nil in Hmsgs as [Hc Hmsgs].
    apply app_eq_nil in Hmsgs as [Hh Hd].
    split; [by apply (messages_of_nil_valid _ _ Hall)|].
    split; [by apply (name_messages_nil "cookie names")|].
    split; [by apply (name_messages_nil "header names")|].
    by apply (defaults_ok_messages _ _ _ Hall Hne Hlast).
  - intros (Hport & Htls & Hne & Hvalid & Hc & Hh & Hd).
    assert (Hparses : Forall parses (Upstreams given)).
    { eapply Forall_impl; [exact Hvalid|]. intros u (parsed & Hp & _).
      by exists parsed. }
    destruct (validateUpstreams_total given [] Hne Hparses)
      as (validated & lastUpstream & Hall & Hlast & Hups).
    eexists. rewrite Validate_composed.
    rewrite (proj2 (validateSsl_nil given) Htls). simpl. rewrite Hups. simpl.
    f_equal. f_equal. apply error_of_None.
    unfold validatePort. destruct (Z.leb_spec (Port given) 0); [lia|].
    simpl. unfold upstreams_messages.
    rewrite (proj2 (messages_of_nil_valid _ _ Hall) Hvalid).
    rewrite (proj2 (name_messages_nil "cookie names" _) Hc).
    rewrite (proj2 (name_messages_nil "header names" _) Hh).
    by rewrite (proj2 (defaults_ok_messages _ _ _ Hall Hne Hlast) Hd).
Qed.

End MoreValidation.

(** ** The text of the error *)

Lemma string_app_assoc (a b c : string) : (a +:+ b) +:+ c = a +:+ b +:+ c.
Proof.
  induction a as [|x a IH]; [reflexivity|].
  change (String x ((a +:+ b) +:+ c) = String x (a +:+ b +:+ c)). by rewrite IH.
Qed.

Lemma string_app_nil_r (a : string) : a +:+ "" = a.
Proof.
  induction a as [|x a IH]; [reflexivity|].
  change (String x (a +:+ "") = String x a). by rewrite IH.
Qed.

Lemma prefix_app (a b : string) : String.prefix a (a +:+ b) = true.
Proof.
  induction a as [|x a IH]; [by destruct b|].
  change (String.prefix (String x a) (String x (a +:+ b)) = true). simpl.
  by destruct (Ascii.ascii_dec x x).
Qed.

Lemma strings_Contains_prefix (s sub : string) :
  String.prefix sub s = true → strings_Contains s sub = true.
Proof. intros Hp. destruct s; cbn [strings_Contains]; by rewrite Hp. Qed.

Lemma strings_Contains_app (front s sub : string) :
  strings_Contains s sub = true → strings_Contains (front +:+ s) sub = true.
Proof.
  intros Hs. induction front as [|x front IH]; [exact Hs|].
  change (strings_Contains (String x (front +:+ s)) sub = true).
  cbn [strings_Contains]. rewrite IH. apply orb_true_r.
Qed.

Lemma strings_Contains_middle (front m back : string) :
  strings_Contains (front +:+ m +:+ back) m = true.
Proof. apply strings_Contains_app, strings_Contains_prefix, prefix_app. Qed.

Lemma strings_Join_split (msgs : list string) (m sep : string) :
  m ∈ msgs →
  ∀ front, ∃ a b,
    front +:+ sep +:+ strings_Join msgs sep = a +:+ (sep +:+ m) +:+ b.
Proof.
  induction msgs as [|a0 rest IH]; [by intros ?%elem_of_nil|].
  intros Hin front. apply elem_of_cons in Hin as [->|Hin].
  - destruct rest as [|r rest].
    + exists front, "". simpl. by rewrite string_app_assoc, string_app_nil_r.
    + exists front, (sep +:+ strings_Join (r :: rest) sep).
      change (strings_Join (a0 :: r :: rest) sep)
        with (a0 +:+ sep +:+ strings_Join (r :: rest) sep).
      by rewrite (string_app_assoc sep a0).
  - destruct rest as [|r rest]; [by apply elem_of_nil in Hin|].
    destruct (IH Hin (front +:+ sep +:+ a0)) as (a & b & Heq).
    exists a, b. rewrite <- Heq.
    change (strings_Join (a0 :: r :: rest) sep)
      with (a0 +:+ sep +:+ strings_Join (r :: rest) sep).
    by rewrite !string_app_assoc.
Qed.

Lemma optionErrors_contains (msgs : list string) (m : string) :
  m ∈ msgs →
  strings_Contains (optionErrors msgs) (newline +:+ "  " +:+ m) = true.
Proof.
  intros Hin.
  destruct (strings_Join_split msgs m (newline +:+ "  ") Hin "Invalid options:")
    as (a & b & Heq).
  change (optionErrors msgs)
    with ("Invalid options:" +:+ (newline +:+ "  ")
          +:+ strings_Join msgs (newline +:+ "  ")).
  rewrite Heq.
  change (newline +:+ "  " +:+ m) with ((newline +:+ "  ") +:+ m).
  apply strings_Contains_middle.
Qed.

Section Extras.
Context `{GoRuntime}.

(** ** The options of a validation *)

(** X7. Whenever [Validate] returns, with or without an error, the
    options it leaves are those it was given with, in each upstream, the
    parsed URL that [url.Parse] returns for its URL: port, TLS paths,
    number and order of the upstreams, URLs and names are unchanged. A
    handler can then be built from them. *)
Theorem Validate_stores_parsed_urls (given opts : AuthDelegateOptions)
    (err : option string) :
  Validate given = Ret (opts, err) →
  Port opts = Port given ∧ SslCert opts = SslCert given ∧
  SslKey opts = SslKey given ∧
  Forall2 (λ u v,
      URL v = URL u ∧ HeaderName v = HeaderName u ∧ CookieName v = CookieName u ∧
      ∃ parsed, url_Parse (URL u) = inl parsed ∧ parsedURL v = Some parsed)
    (Upstreams given) (Upstreams opts) ∧
  ∃ h, NewAuthDelegate opts = Ret h ∧
       length (upstreams h) = length (Upstreams given).
Proof.
  intros Hv. apply Validate_options in Hv as [Hparses ->]. simpl.
  repeat (split; [reflexivity|]). split.
  - induction Hparses as [|u l [parsed Hp] _ IH]; csimpl; constructor; [|exact IH].
    unfold store_parsed. rewrite Hp. simpl.
    split; [done|]. split; [done|]. split; [done|]. by exists parsed.
  - destruct (NewAuthDelegate_range_total (store_parsed <$> Upstreams given)
                (mkHandler []) (store_parsed_is_Some _ Hparses)) as [h Hh].
    exists h. split; [exact Hh|].
    apply (NewAuthDelegate_Ret (mkOptions (Port given) (SslCert given)
             (SslKey given) (store_parsed <$> Upstreams given))) in Hh.
    apply Forall2_length in Hh. simpl in Hh. by rewrite <- Hh, length_fmap.
Qed.

(** X9. [Validate] returns without an error exactly on the
    configurations with a positive port, TLS material in order, at least
    one upstream, every upstream with a URL that parses to scheme http
    or https and with at most one name, no non-empty cookie name and no
    non-empty header name on two upstreams, and no default upstream or
    one whose URL is the URL of the last upstream. On every other
    configuration it returns an error or panics. *)
Theorem Validate_accepts_iff (given : AuthDelegateOptions) :
  (valid_config given ↔
   Validate given
   = Ret (mkOptions (Port given) (SslCert given) (SslKey given)
            (store_parsed <$> Upstreams given), None)) ∧
  (¬ valid_config given →
   ∀ opts err, Validate given = Ret (opts, err) → is_Some err).
Proof.
  split; [split|].
  - intros Hvalid. apply Validate_None_iff in Hvalid as [opts Hv].
    pose proof Hv as Hopts. apply Validate_options in Hopts as [_ Hopts].
    by rewrite <- Hopts.
  - intros Hv. apply Validate_None_iff. eauto.
  - intros Hinvalid opts [e|] Hv; [eauto|].
    destruct Hinvalid. apply Validate_None_iff. eauto.
Qed.

(** ** The TLS material *)

(** X10. [validateSsl] panics exactly when [os.Stat] fails, on a
    certificate or key path that is given, with an error that is neither
    "not exist" nor "permission": [info] is then nil. [Validate] panics
    with it, whatever the upstreams; otherwise [validateSsl] returns the
    messages it was given, extended. *)
Theorem tls_stat_failure_panics (opts : AuthDelegateOptions) (msgs : list string) :
  (validateSsl opts msgs = Panic nil_dereference ↔ tls_stat_fails opts) ∧
  (tls_stat_fails opts → Validate opts = Panic nil_dereference) ∧
  (¬ tls_stat_fails opts → ∃ added, validateSsl opts msgs = Ret (msgs ++ added)).
Proof.
  split; [apply validateSsl_panics|]. split.
  - intros Hfails. unfold Validate.
    by rewrite (proj2 (validateSsl_panics opts _) Hfails).
  - intros Hok. rewrite validateSsl_app.
    destruct (validateSsl opts []) as [added|reason] eqn:Hssl; simpl; [eauto|].
    destruct Hok. apply (validateSsl_panics opts []).
    by rewrite Hssl, (validateSsl_Panic _ _ _ Hssl).
Qed.

(** X11. When [validateSsl] returns, it has added no message exactly
    when neither path is given or both are given and are regular files;
    when only one of the two is given, the first message it adds says
    that both must be. *)
Theorem tls_messages (opts : AuthDelegateOptions) (msgs msgs' : list string) :
  validateSsl opts msgs = Ret msgs' →
  ∃ added,
    msgs' = msgs ++ added ∧
    (added = [] ↔ tls_ok opts) ∧
    ((SslCert opts = "" ∧ SslKey opts ≠ "") ∨ (SslCert opts ≠ "" ∧ SslKey opts = "") →
     ∃ rest,
       added =
       "ssl-cert and ssl-key must both be specified, or neither must be" :: rest).
Proof.
  rewrite validateSsl_app.
  destruct (validateSsl opts []) as [added|] eqn:Hssl; [|discriminate].
  simpl. intros [= <-]. exists added. split; [reflexivity|]. split.
  - rewrite <- validateSsl_nil, Hssl. split; congruence.
  - intros Hone. revert Hssl. unfold validateSsl, checkExistenceAndPermission.
    assert ((SslCert opts !=? "") && (SslKey opts !=? "") = false
            ∧ (SslCert opts !=? "") || (SslKey opts !=? "") = true) as [Hand Hor].
    { destruct Hone as [[Hc Hk]|[Hc Hk]];
        [apply str_ne_false in Hc; apply str_ne_true in Hk
        |apply str_ne_true in Hc; apply str_ne_false in Hk];
        by rewrite Hc, Hk. }
    rewrite Hand, Hor. simpl.
    destruct (SslCert opts !=? ""), (SslKey opts !=? ""); simpl;
      repeat match goal with
        | |- context [os_Stat ?p] => destruct (os_Stat p) as [[]| | |]; simpl
        end;
      intros [= <-]; eauto.
Qed.

(** ** The messages *)

(** X12. The checks compose: what [validateSsl] and [validateUpstreams]
    add does not depend on the messages collected before, and the error
    of [Validate] is made of the messages of the port, then those of the
    TLS material, then those of the upstreams. *)
Theorem Validate_composes (given opts : AuthDelegateOptions) (err : option string) :
  (∀ msgs, validateSsl given msgs
           = validateSsl given [] ≫= λ added, Ret (msgs ++ added)) ∧
  (∀ msgs, validateUpstreams given msgs
           = validateUpstreams given [] ≫= λ '(o, added), Ret (o, msgs ++ added)) ∧
  (Validate given = Ret (opts, err) ↔
   ∃ ssl ups,
     validateSsl given [] = Ret ssl ∧
     validateUpstreams given [] = Ret (opts, ups) ∧
     err = error_of (validatePort given [] ++ ssl ++ ups)).
Proof.
  split; [apply validateSsl_app|]. split; [apply validateUpstreams_app|].
  rewrite Validate_composed.
  destruct (validateSsl given []) as [ssl|]; simpl.
  - destruct (validateUpstreams given []) as [[o ups]|]; simpl; split.
    + intros [= <- <-]. by exists ssl, ups.
    + intros (? & ? & [= <-] & [= <- <-] & ->). reflexivity.
    + discriminate.
    + intros (? & ? & _ & [=] & _).
  - split; [discriminate | intros (? & ? & [=] & _)].
Qed.

(** X13. Every fault of an upstream is reported: when [Validate]
    returns, its messages name the URL of each upstream whose parsed
    scheme is empty, of each whose scheme is neither http nor https, and
    of each that has both a header name and a cookie name. *)
Theorem upstream_faults_reported (given opts : AuthDelegateOptions)
    (err : option string) (u : AuthDelegateUpstream) (parsed : url.URL) :
  Validate given = Ret (opts, err) →
  u ∈ Upstreams given →
  url_Parse (URL u) = inl parsed →
  ∃ msgs,
    err = error_of msgs ∧
    (url.Scheme parsed = "" →
     "upstream scheme not specified: " +:+ URL u ∈ msgs) ∧
    (url.Scheme parsed ≠ "" → url.Scheme parsed ≠ "http" →
     url.Scheme parsed ≠ "https" →
     "invalid upstream scheme: " +:+ URL u ∈ msgs) ∧
    (HeaderName u ≠ "" → CookieName u ≠ "" →
     "both header_name and cookie_name defined: " +:+ URL u ∈ msgs).
Proof.
  intros Hv Hin Hp. apply Validate_Ret in Hv as (msgs1 & msgs & _ & Hups & ->).
  assert (Hne : Upstreams given ≠ []) by (intros Hnil; rewrite Hnil in Hin;
                                          by apply elem_of_nil in Hin).
  destruct (validateUpstreams_Ret _ _ _ _ Hne Hups)
    as (validated & lastUpstream & Hall & _ & _ & ->).
  apply list_elem_of_lookup in Hin as [i Hi].
  destruct (Forall2_lookup_l _ _ _ _ _ Hall Hi) as (v & Hv & parsed' & Hp' & ->).
  assert (parsed' = parsed) as -> by congruence.
  assert (Hsub : ∀ m, m ∈ upstream_messages u (url.Scheme parsed) →
                      m ∈ msgs1 ++ upstreams_messages (Upstreams given) validated
                                     lastUpstream).
  { intros m Hm. apply elem_of_app. right. unfold upstreams_messages.
    apply elem_of_app. left. apply list_elem_of_In, in_concat.
    exists (messages_of (with_parsed u parsed)).
    split; [|by apply list_elem_of_In]. apply list_elem_of_In, list_elem_of_fmap.
    exists (with_parsed u parsed). split; [reflexivity|].
    by eapply list_elem_of_lookup_2. }
  eexists. split; [reflexivity|]. unfold upstream_messages in Hsub.
  split; [|split].
  - intros Hs. apply Hsub. rewrite Hs. simpl. apply list_elem_of_here.
  - intros H0 H1 H2. apply Hsub.
    apply String.eqb_neq in H0, H1, H2. rewrite H0, H1, H2. simpl.
    apply list_elem_of_here.
  - intros Hh Hc. apply Hsub. apply elem_of_app. right.
    apply str_ne_true in Hh, Hc. rewrite Hh, Hc. simpl. apply list_elem_of_here.
Qed.

(** X14. The text of the error starts with "Invalid options:" and has
    every message on a line of its own, after two spaces; [Validate]
    returns such a text, of a list of messages that is not empty, or no
    error at all. *)
Theorem error_text_lists_messages (given opts : AuthDelegateOptions) (e : string) :
  (∀ msgs, strings_HasPrefix (optionErrors msgs) "Invalid options:" = true) ∧
  (∀ msgs m, m ∈ msgs →
     strings_Contains (optionErrors msgs) (newline +:+ "  " +:+ m) = true) ∧
  (Validate given = Ret (opts, Some e) →
   ∃ msgs, msgs ≠ [] ∧ e = optionErrors msgs ∧
           ∀ m, m ∈ msgs → strings_Contains e (newline +:+ "  " +:+ m) = true).
Proof.
  split; [reflexivity|]. split; [apply optionErrors_contains|].
  intros Hv. apply Validate_Ret in Hv as (msgs1 & msgs & _ & _ & Herr).
  exists msgs. unfold error_of in Herr.
  destruct msgs as [|m0 msgs]; [discriminate|]. simpl in Herr.
  injection Herr as ->. split; [done|]. split; [reflexivity|].
  intros m. apply optionErrors_contains.
Qed.

(** ** From JSON *)

(** X15. [NewAuthDelegateOptionsFromJSON] answers a decoding failure
    with "JSON parsing failed: " and the decoder's text, without any
    validation. Whenever it returns, it returns options or an error,
    never both and never neither; the options it returns are those of a
    configuration that [Validate] accepts, with the parsed URLs
    stored. *)
Theorem NewAuthDelegateOptionsFromJSON_result (config : string) :
  (∀ e, json_Unmarshal config = inr e →
        NewAuthDelegateOptionsFromJSON config
        = Ret (None, Some ("JSON parsing failed: " +:+ e))) ∧
  (∀ produced err,
     NewAuthDelegateOptionsFromJSON config = Ret (produced, err) →
     (is_Some produced ↔ err = None) ∧
     (∀ opts, produced = Some opts →
        ∃ given,
          json_Unmarshal config = inl given ∧ valid_config given ∧
          Validate given = Ret (opts, None) ∧
          Forall well_formed (Upstreams opts))).
Proof.
  unfold NewAuthDelegateOptionsFromJSON. split.
  - intros e He. by rewrite He.
  - intros produced err.
    destruct (json_Unmarshal config) as [given|e].
    + destruct (Validate given) as [[opts [e|]]|] eqn:Hv; simpl;
        [| |discriminate]; intros [= <- <-].
      * split; [split; [intros [? [=]] | discriminate] | discriminate].
      * split; [split; eauto|]. intros ? [= <-]. exists given.
        split; [reflexivity|]. split; [apply Validate_None_iff; eauto|].
        split; [exact Hv|]. by apply Validate_success_well_formed in Hv as [_ ?].
    + intros [= <- <-].
      split; [split; [intros [? [=]] | discriminate] | discriminate].
Qed.

(** ** The default upstream in its place *)

(** X16. A configuration in which no upstream but the last is a default
    is accepted when everything else is in order: a positive port, TLS
    material in order, upstreams that are valid one by one, no repeated
    name. *)
Theorem default_last_accepted (given : AuthDelegateOptions)
    (front : list AuthDelegateUpstream) (lastGiven : AuthDelegateUpstream) :
  Upstreams given = front ++ [lastGiven] →
  Forall (λ u, ¬ is_default u) front →
  (0 < Port given)%Z → tls_ok given →
  Forall valid_upstream (Upstreams given) →
  (∀ name, ¬ repeated_in (CookieName <$> Upstreams given) name) →
  (∀ name, ¬ repeated_in (HeaderName <$> Upstreams given) name) →
  ∃ opts, Validate given = Ret (opts, None) ∧ Forall well_formed (Upstreams opts).
Proof.
  intros Hups Hfront Hport Htls Hvalid Hc Hh.
  assert (Hok : valid_config given).
  { repeat (split; [done|]). split; [rewrite Hups; by destruct front|].
    repeat (split; [done|]). unfold defaults_ok. rewrite Hups, filter_app.
    assert (filter is_default front = []) as ->.
    { clear -Hfront. induction Hfront as [|u l Hu _ IH]; [reflexivity|].
      rewrite filter_cons. by case_decide. }
    simpl. rewrite filter_cons, filter_nil. case_decide; [|by left].
    right. exists lastGiven, lastGiven. by rewrite last_snoc. }
  apply Validate_None_iff in Hok as [opts Hv]. exists opts.
  split; [exact Hv|]. by apply Validate_success_well_formed in Hv as [_ ?].
Qed.

(** X19. The place of a default upstream is judged by its URL. In a
    configuration that passes every other check and has exactly one
    default upstream, [Validate] returns without an error exactly when
    the URL of the default is, as a string, the URL of the last
    upstream, wherever the default stands in the list. *)
Theorem default_placement_compares_urls (given : AuthDelegateOptions)
    (d lastGiven : AuthDelegateUpstream) :
  (0 < Port given)%Z → tls_ok given →
  Forall valid_upstream (Upstreams given) →
  (∀ name, ¬ repeated_in (CookieName <$> Upstreams given) name) →
  (∀ name, ¬ repeated_in (HeaderName <$> Upstreams given) name) →
  filter is_default (Upstreams given) = [d] →
  last (Upstreams given) = Some lastGiven →
  (∃ opts, Validate given = Ret (opts, None)) ↔ URL d = URL lastGiven.
Proof.
  intros Hport Htls Hvalid Hc Hh Hd Hlast. rewrite Validate_None_iff. split.
  - intros (_ & _ & _ & _ & _ & _ & [Hnil | (d' & l' & Hd' & Hl' & Heq)]);
      congruence.
  - intros Heq. repeat (split; [done|]).
    split; [intros Hnil; by rewrite Hnil in Hlast|]. repeat (split; [done|]).
    right. by exists d, lastGiven.
Qed.

End Extras.

(** * Two runs of the validator *)

Lemma validateSsl_same_answers (R R' : GoRuntime) (opts : AuthDelegateOptions)
    (msgs : list string) :
  same_answers R R' →
  validateSsl (H:=R') opts msgs = validateSsl (H:=R) opts msgs.
Proof.
  intros [_ Hos]. unfold validateSsl, checkExistenceAndPermission.
  by rewrite !Hos.
Qed.

Lemma validateUpstream_same_answers (R R' : GoRuntime)
    (upstream : AuthDelegateUpstream) (msgs : list string) :
  same_answers R R' →
  validateUpstream (H:=R') upstream msgs = validateUpstream (H:=R) upstream msgs.
Proof.
  intros [Hurl _]. unfold validateUpstream, validateUpstream_parse.
  by rewrite Hurl.
Qed.

Lemma validateUpstreams_loop_same_answers (R R' : GoRuntime)
    (rest : list AuthDelegateUpstream) (st : scan) :
  same_answers R R' →
  validateUpstreams_loop (H:=R') rest st = validateUpstreams_loop (H:=R) rest st.
Proof.
  intros Hsame. revert st. induction rest as [|current rest IH]; intros st; simpl;
    [reflexivity|].
  rewrite (validateUpstream_same_answers R R' _ _ Hsame).
  destruct (validateUpstream current (scan_msgs st)) as [[c msgs]|]; simpl;
    [apply IH | reflexivity].
Qed.

Lemma validateNameCounts_same_map_order (R R' : GoRuntime) (category : string)
    (counts : gmap string Z) (msgs : list string) :
  same_map_order R R' →
  validateNameCounts (H:=R') category counts msgs
  = validateNameCounts (H:=R) category counts msgs.
Proof. intros Hmap. unfold validateNameCounts. by rewrite Hmap. Qed.

(** The options that come back, and whether the validation panics, do
    not depend on the order of the maps; the messages about repeated
    names do. *)
Lemma validateUpstreams_same_answers (R R' : GoRuntime)
    (opts : AuthDelegateOptions) (msgs : list string) :
  same_answers R R' →
  match validateUpstreams (H:=R) opts msgs with
  | Ret (opts1, msgs1) =>
      ∃ msgs2, validateUpstreams (H:=R') opts msgs = Ret (opts1, msgs2) ∧
               (same_map_order R R' → msgs2 = msgs1)
  | Panic reason => validateUpstreams (H:=R') opts msgs = Panic reason
  end.
Proof.
  intros Hsame. unfold validateUpstreams.
  destruct (length (Upstreams opts) =? 0)%nat; [by eexists|].
  rewrite (validateUpstreams_loop_same_answers R R' _ _ Hsame).
  destruct (validateUpstreams_loop (Upstreams opts) _) as [st|]; simpl;
    [|reflexivity].
  destruct (last (visited st)) as [lastUpstream|]; [|reflexivity].
  eexists. split; [reflexivity|]. intros Hmap.
  by rewrite !(validateNameCounts_same_map_order R R' _ _ _ Hmap).
Qed.

Lemma valid_config_same_answers (R R' : GoRuntime) (opts : AuthDelegateOptions) :
  same_answers R R' →
  valid_config (H:=R) opts → valid_config (H:=R') opts.
Proof.
  intros [Hurl Hos] (Hport & Htls & Hne & Hall & Hc & Hh & Hd).
  split; [exact Hport|]. split; [|split; [exact Hne|split; [|done]]].
  - unfold tls_ok in *. rewrite !Hos. exact Htls.
  - eapply Forall_impl; [exact Hall|]. intros upstream (parsed & Hp & Hrest).
    exists parsed. by rewrite Hurl.
Qed.

Lemma same_answers_sym (R R' : GoRuntime) : same_answers R R' → same_answers R' R.
Proof. intros [Hurl Hos]. by split. Qed.

Lemma Validate_same_answers (R R' : GoRuntime) (given : AuthDelegateOptions) :
  same_answers R R' →
  match Validate (H:=R) given with
  | Ret (opts, err) =>
      ∃ err', Validate (H:=R') given = Ret (opts, err') ∧
              (err' = None ↔ err = None) ∧
              (same_map_order R R' → err' = err)
  | Panic reason => Validate (H:=R') given = Panic reason
  end.
Proof.
  intros Hsame.
  destruct (Validate (H:=R) given) as [[opts err]|reason] eqn:HvR.
  - pose proof HvR as Hret.
    apply Validate_Ret in Hret as (msgs1 & msgs & Hssl & Hups & ->).
    pose proof (validateUpstreams_same_answers R R' given msgs1 Hsame) as Hups'.
    rewrite Hups in Hups'. destruct Hups' as (msgs2 & Hups' & Horder).
    assert (HvR' : Validate (H:=R') given = Ret (opts, error_of msgs2)).
    { apply Validate_Ret. exists msgs1, msgs2.
      by rewrite (validateSsl_same_answers R R' _ _ Hsame). }
    exists (error_of msgs2). split; [exact HvR'|].
    split; [|by intros ->%Horder].
    split; intros Hnone.
    + rewrite Hnone in HvR'.
      assert (Hvalid : valid_config (H:=R) given).
      { apply (valid_config_same_answers R' R); [by apply same_answers_sym|].
        apply Validate_None_iff. by exists opts. }
      apply Validate_None_iff in Hvalid as [o Ho]. rewrite HvR in Ho.
      by injection Ho as _ Ho.
    + rewrite Hnone in HvR.
      assert (Hvalid : valid_config (H:=R') given).
      { apply (valid_config_same_answers R R'); [done|].
        apply Validate_None_iff. by exists opts. }
      apply Validate_None_iff in Hvalid as [o Ho]. rewrite HvR' in Ho.
      by injection Ho as _ Ho.
  - unfold Validate in *.
    rewrite (validateSsl_same_answers R R' _ _ Hsame).
    destruct (validateSsl given _) as [msgs1|]; simpl in *; [|exact HvR].
    pose proof (validateUpstreams_same_answers R R' given msgs1 Hsame) as Hups.
    destruct (validateUpstreams (H:=R) given msgs1) as [[opts msgs]|]; simpl in *;
      [discriminate|].
    rewrite Hups. exact HvR.
Qed.

(** X8. [Validate] reads the port, the TLS paths, and the URL and names
    of each upstream, never a parsed URL stored before. Take a second
    run of [Validate], in which [url.Parse] and [os.Stat] answer as in
    the first and the maps may be visited in another order, on options
    with the same port, TLS paths, and URL and names of each upstream.
    When the first run returns, the second returns the same options,
    and an error exactly when the first returned one; the error is the
    same when the maps are visited in the same order. When the first run
    panics, so does the second. In particular the options that a
    validation has left are left as they are by a second validation. *)
Theorem Validate_again (R R' : GoRuntime) (given other : AuthDelegateOptions) :
  same_answers R R' →
  Port other = Port given → SslCert other = SslCert given →
  SslKey other = SslKey given →
  Forall2 same_fields (Upstreams given) (Upstreams other) →
  (∀ opts err, Validate (H:=R) given = Ret (opts, err) →
     ∃ err', Validate (H:=R') other = Ret (opts, err') ∧
             (err' = None ↔ err = None) ∧
             (same_map_order R R' → err' = err)) ∧
  (∀ reason, Validate (H:=R) given = Panic reason →
     Validate (H:=R') other = Panic reason) ∧
  (∀ opts err, Validate (H:=R) given = Ret (opts, err) →
     ∃ err', Validate (H:=R') opts = Ret (opts, err') ∧
             (err' = None ↔ err = None) ∧
             (same_map_order R R' → err' = err)).
Proof.
  intros Hsame Hport Hcert Hkey Hfields.
  pose proof (Validate_same_answers R R' given Hsame) as Hruns.
  rewrite <- (Validate_same_fields (H:=R') given other Hport Hcert Hkey Hfields)
    in Hruns.
  split; [|split].
  - intros opts err Hv. by rewrite Hv in Hruns.
  - intros reason Hv. by rewrite Hv in Hruns.
  - intros opts err Hv.
    pose proof (Validate_same_answers R R' given Hsame) as Hgiven.
    rewrite Hv in Hgiven.
    apply (Validate_options (H:=R)) in Hv as [_ ->].
    rewrite (Validate_same_fields (H:=R') given
               (mkOptions (Port given) (SslCert given) (SslKey given)
                  (store_parsed (H:=R) <$> Upstreams given))); try reflexivity;
      [exact Hgiven|].
    apply (store_parsed_fields (H:=R)).
Qed.

(** * Properties of the process *)

Section ProcessProperties.
Context `{GoRuntime} `{GoProcess}.

Lemma NewAuthDelegateOptionsFromJSON_Ret (config : string)
    (produced : option AuthDelegateOptions) (err : option string) :
  NewAuthDelegateOptionsFromJSON config = Ret (produced, err) ↔
  (∃ e, json_Unmarshal config = inr e ∧ produced = None ∧
        err = Some ("JSON parsing failed: " +:+ e)) ∨
  (∃ given opts e, json_Unmarshal config = inl given ∧
        Validate given = Ret (opts, Some e) ∧ produced = None ∧ err = Some e) ∨
  (∃ given opts, json_Unmarshal config = inl given ∧
        Validate given = Ret (opts, None) ∧ produced = Some opts ∧ err = None).
Proof.
  unfold NewAuthDelegateOptionsFromJSON. split.
  - destruct (json_Unmarshal config) as [given|e0].
    + destruct (Validate given) as [[opts [e|]]|] eqn:Hv; simpl;
        [| |discriminate]; intros [= <- <-].
      * right. left. by exists given, opts, e.
      * right. right. by exists given, opts.
    + intros [= <- <-]. left. by exists e0.
  - intros [(e & Hj & -> & ->)
           | [(given & opts & e & Hj & Hv & -> & ->)
             | (given & opts & Hj & Hv & -> & ->)]];
      rewrite Hj; [reflexivity | by rewrite Hv | by rewrite Hv].
Qed.

Lemma main_two_arguments (program configPath : string) :
  main [program; configPath]
  = match ioutil_ReadFile configPath with
    | inr err => Ret (printErrorAndExit "reading" configPath err)
    | inl configBytes =>
        NewAuthDelegateOptionsFromJSON configBytes ≫= λ '(opts, err),
          match err, opts with
          | Some e, _ => Ret (printErrorAndExit "parsing" configPath e)
          | None, None => Panic nil_dereference
          | None, Some opts =>
              NewAuthDelegate opts ≫= λ handler,
                let address := ":" +:+ strconv_Itoa (Port opts) in
                let printed :=
                  ["port " +:+ strconv_Itoa (Port opts) +:+
                   ": awaiting auth delegation requests" +:+ newline] in
                if SslCert opts !=? "" then
                  Ret (printed,
                       ListenAndServeTLS address handler (SslCert opts) (SslKey opts))
                else Ret (printed, ListenAndServe address handler)
          end
    end.
Proof. reflexivity. Qed.

Lemma main_other_arguments (args : list string) :
  length args ≠ 2%nat → main args = usage args ≫= λ printed, Ret (printed, os_Exit 1).
Proof.
  intros Hlen. unfold main.
  destruct (Nat.eqb_spec (length args) 2); [done | reflexivity].
Qed.

(** What [main] does with a configuration that [Validate] accepts. *)
Lemma main_validated (program configPath configBytes : string)
    (given opts : AuthDelegateOptions) :
  ioutil_ReadFile configPath = inl configBytes →
  json_Unmarshal configBytes = inl given →
  Validate given = Ret (opts, None) →
  ∃ h,
    NewAuthDelegate opts = Ret h ∧
    Forall2 rule_of (Upstreams opts) (upstreams h) ∧
    main [program; configPath]
    = Ret (["port " +:+ strconv_Itoa (Port given) +:+
            ": awaiting auth delegation requests" +:+ newline],
           if SslCert given !=? "" then
             ListenAndServeTLS (":" +:+ strconv_Itoa (Port given)) h
               (SslCert given) (SslKey given)
           else ListenAndServe (":" +:+ strconv_Itoa (Port given)) h).
Proof.
  intros Hread Hjson Hv.
  pose proof Hv as Hwf. apply Validate_success_well_formed in Hwf as [_ Hwf].
  destruct (NewAuthDelegate_range_total (Upstreams opts) (mkHandler [])) as [h Hh].
  { eapply Forall_impl; [exact Hwf|]. intros u [(parsed & -> & _) _]. eauto. }
  exists h. split; [exact Hh|]. split; [by apply NewAuthDelegate_Ret|].
  rewrite main_two_arguments, Hread.
  assert (Hnew : NewAuthDelegateOptionsFromJSON configBytes = Ret (Some opts, None)).
  { apply NewAuthDelegateOptionsFromJSON_Ret. right. right. by exists given, opts. }
  rewrite Hnew. simpl. unfold NewAuthDelegate. rewrite Hh. simpl.
  pose proof Hv as Hopts. apply Validate_options in Hopts as [_ ->]. simpl.
  by destruct (SslCert given !=? "").
Qed.

(** X17. [main] serves requests exactly on the configurations that
    [Validate] accepts. If it reaches a call that listens, it was given
    two arguments, the file named by the second was read and decoded,
    the configuration is valid, the handler is the one [NewAuthDelegate]
    builds from the validated options, the address is a colon followed
    by the port in decimal, and it listens with TLS exactly when a
    certificate path is configured. Conversely it reaches that call on
    every readable, decodable, valid configuration. *)
Theorem main_serves_valid_configurations (args : list string) :
  (∀ printed e,
     main args = Ret (printed, e) → (∀ code, e ≠ os_Exit code) →
     ∃ program path config given opts h,
       args = [program; path] ∧ ioutil_ReadFile path = inl config ∧
       json_Unmarshal config = inl given ∧ valid_config given ∧
       Validate given = Ret (opts, None) ∧
       NewAuthDelegate opts = Ret h ∧
       Forall2 rule_of (Upstreams opts) (upstreams h) ∧
       printed = ["port " +:+ strconv_Itoa (Port given) +:+
                  ": awaiting auth delegation requests" +:+ newline] ∧
       e = (if SslCert given !=? "" then
              ListenAndServeTLS (":" +:+ strconv_Itoa (Port given)) h
                (SslCert given) (SslKey given)
            else ListenAndServe (":" +:+ strconv_Itoa (Port given)) h)) ∧
  (∀ program path config given,
     args = [program; path] → ioutil_ReadFile path = inl config →
     json_Unmarshal config = inl given → valid_config given →
     ∃ printed e, main args = Ret (printed, e) ∧ ∀ code, e ≠ os_Exit code).
Proof.
  split.
  - intros printed e Hmain Hserve.
    destruct (decide (length args = 2%nat)) as [Hlen|Hlen].
    + destruct args as [|program [|path [|]]]; try discriminate.
      rewrite main_two_arguments in Hmain.
      destruct (ioutil_ReadFile path) as [config|err] eqn:Hread.
      * destruct (NewAuthDelegateOptionsFromJSON config) as [[produced err]|]
          eqn:Hnew; [|discriminate].
        apply NewAuthDelegateOptionsFromJSON_Ret in Hnew
          as [(? & _ & -> & ->) | [(? & ? & ? & _ & _ & -> & ->)
                                  | (given & opts & Hjson & Hv & -> & ->)]];
          simpl in Hmain.
        -- injection Hmain as _ <-. by destruct (Hserve 1%Z).
        -- injection Hmain as _ <-. by destruct (Hserve 1%Z).
        -- destruct (main_validated program path config given opts Hread Hjson Hv)
             as (h & Hh & Hrules & Hm).
           exists program, path, config, given, opts, h.
           repeat (split; [done|]). split; [apply Validate_None_iff; eauto|].
           repeat (split; [done|]).
           rewrite main_two_arguments, Hread in Hm.
           assert (Hnew : NewAuthDelegateOptionsFromJSON config
                          = Ret (Some opts, None)).
           { apply NewAuthDelegateOptionsFromJSON_Ret. right. right.
             by exists given, opts. }
           rewrite Hnew in Hm. simpl in Hm.
           rewrite Hmain in Hm. by injection Hm as <- <-.
      * injection Hmain as _ <-. by destruct (Hserve 1%Z).
    + rewrite (main_other_arguments _ Hlen) in Hmain.
      destruct (usage args); [|discriminate]. injection Hmain as _ <-.
      by destruct (Hserve 1%Z).
  - intros program path config given -> Hread Hjson Hvalid.
    apply Validate_None_iff in Hvalid as [opts Hv].
    destruct (main_validated program path config given opts Hread Hjson Hv)
      as (h & _ & _ & Hm).
    rewrite Hm. eexists _, _. split; [reflexivity|].
    intros code. by destruct (SslCert given !=? "").
Qed.


End ProcessProperties.

(** * The claims on concrete configurations and requests *)

#[local] Existing Instance Sample.runtime.

(** ** C1 *)

Lemma dispatch_first_match_witness :
  Validate Example.cookie_header_default = Ret (Example.validated, None) ∧
  ∃ h, NewAuthDelegate Example.validated = Ret h ∧
       Forall2 rule_of (Upstreams Example.validated) (upstreams h).
Proof.
  assert (Hvalid : Validate Example.cookie_header_default
                   = Ret (Example.validated, None))
    by (vm_compute; reflexivity).
  split; [exact Hvalid|].
  destruct (dispatch_first_match _ _ Hvalid) as (h & Hh & Hrules & _).
  exists h. split; [exact Hh | exact Hrules].
Defined.

Example header_cookie_handler_built :
  NewAuthDelegate Example.header_cookie = Ret Example.header_cookie_handler.
Proof. reflexivity. Qed.

(** A scenario of the tests: header and cookie together select the rule
    listed first. *)
Example header_cookie_first_listed :
  ServeHTTP Example.header_cookie_handler (Example.get Example.signed_with_cookie)
  = httputil.ServeHTTP (handler (Example.rule "X-Signature" "" Example.local8080))
      (Example.get Example.signed_with_cookie).
Proof. vm_compute. reflexivity. Qed.

(** ** C2 *)

Lemma header_rule_accepts_witness :
  headerName (Example.rule "X-Signature" "" Example.local8080) ≠ "" ∧
  accepts (Example.rule "X-Signature" "" Example.local8080)
    (Example.get Example.signed) = true.
Proof.
  split; [discriminate|].
  apply (header_rule_accepts (Example.rule "X-Signature" "" Example.local8080)
           (Example.get Example.signed)); [discriminate|].
  exists "foobar", []. split; [vm_compute; reflexivity | discriminate].
Defined.

(** The header is present, its value is the empty string, and the rule
    does not accept the request. *)
Lemma header_present_empty_not_accepted :
  headerName (Example.rule "X-Signature" "" Example.local8080) ≠ "" ∧
  carries_header (Example.get Example.empty_signature) "X-Signature" ∧
  header_values (Example.get Example.empty_signature) "X-Signature" = [""] ∧
  accepts (Example.rule "X-Signature" "" Example.local8080)
    (Example.get Example.empty_signature) = false.
Proof.
  split; [discriminate|]. split; [|split; vm_compute; reflexivity].
  exists [""]. vm_compute. reflexivity.
Qed.

(** ** C3 *)

Lemma forwarded_request_witness :
  NewAuthDelegate Example.only_default = Ret Example.only_default_handler ∧
  ServeHTTP Example.only_default_handler (Example.get ∅)
  = http.RoundTrip
      (http.mkRequest "GET" Example.oauth2 {[ "X-Original-Uri" := ["/bar?quux"] ]}
         "" "/bar?quux") ∧
  ∃ i upstream,
    Upstreams Example.only_default !! i = Some upstream ∧
    parsedURL upstream = Some Example.oauth2.
Proof.
  assert (Hh : NewAuthDelegate Example.only_default
               = Ret Example.only_default_handler) by reflexivity.
  assert (Hs : ServeHTTP Example.only_default_handler (Example.get ∅)
               = http.RoundTrip
                   (http.mkRequest "GET" Example.oauth2
                      {[ "X-Original-Uri" := ["/bar?quux"] ]} "" "/bar?quux"))
    by (vm_compute; reflexivity).
  split; [exact Hh|]. split; [exact Hs|].
  destruct (forwarded_request _ _ _ _ Hh Hs)
    as (i & upstream & d & target & Hup & _ & _ & _ & Ht & Hurl & _).
  exists i, upstream. split; [exact Hup|]. rewrite Ht. f_equal. symmetry. exact Hurl.
Defined.

(** GET /bar?quux goes to /oauth2/auth with no query: path and query of
    the forwarded request are the upstream's, not the inbound ones. *)
Lemma forwarded_path_query_replaced :
  NewAuthDelegate Example.only_default = Ret Example.only_default_handler ∧
  ∃ outreq,
    ServeHTTP Example.only_default_handler (Example.get ∅) = http.RoundTrip outreq ∧
    url.Path (http.URL (Example.get ∅)) = "/bar" ∧
    url.Path (http.URL outreq) = "/oauth2/auth" ∧
    url.Path (http.URL outreq) ≠ url.Path (http.URL (Example.get ∅)) ∧
    url.RawQuery (http.URL (Example.get ∅)) = "quux" ∧
    url.RawQuery (http.URL outreq) = "" ∧
    url.RawQuery (http.URL outreq) ≠ url.RawQuery (http.URL (Example.get ∅)).
Proof.
  split; [reflexivity|].
  exists (http.mkRequest "GET" Example.oauth2 {[ "X-Original-Uri" := ["/bar?quux"] ]}
            "" "/bar?quux").
  split; [vm_compute; reflexivity|]. repeat split; discriminate.
Qed.

(** ** C4 *)


(** GET /bar?quux with no X-Original-URI: the request target is the path
    and the query of the inbound URL, and that is the forwarded value. *)
Example original_uri_is_path_and_query :
  http.RequestURI (Example.get ∅) = path_and_query (http.URL (Example.get ∅)) ∧
  path_and_query (http.URL (Example.get ∅)) = "/bar?quux" ∧
  ∃ outreq,
    ServeHTTP Example.only_default_handler (Example.get ∅) = http.RoundTrip outreq ∧
    header_values outreq "X-Original-URI" = ["/bar?quux"].
Proof.
  split; [reflexivity|]. split; [reflexivity|].
  exists (http.mkRequest "GET" Example.oauth2 {[ "X-Original-Uri" := ["/bar?quux"] ]}
            "" "/bar?quux").
  split; vm_compute; reflexivity.
Qed.


(** ** C5 *)

Lemma no_match_unauthorized_witness :
  Forall (λ d, accepts d (Example.get ∅) = false)
    (upstreams Example.header_cookie_handler) ∧
  ServeHTTP Example.header_cookie_handler (Example.get ∅)
  = http.Error "unauthorized request" 401.
Proof.
  assert (Hnone : Forall (λ d, accepts d (Example.get ∅) = false)
                    (upstreams Example.header_cookie_handler))
    by (repeat constructor; vm_compute; reflexivity).
  split; [exact Hnone|].
  exact (proj1 (proj1 (no_match_unauthorized Example.header_cookie_handler
                         (Example.get ∅)) Hnone)).
Defined.

(** ** C6 *)

Lemma default_placement_witness :
  (Forall parses (Upstreams Example.default_first) ∧
   validateSsl Example.default_first (validatePort Example.default_first []) = Ret [] ∧
   ∃ opts' msgs,
     Validate Example.default_first = Ret (opts', Some (optionErrors msgs)) ∧
     last msgs =
     Some ("upstream without header_name or cookie_name not last in upstream list: "
           +:+ "https://foo.com/auth")) ∧
  (Forall parses (Upstreams Example.two_defaults) ∧
   ∃ opts' msgs,
     Validate Example.two_defaults = Ret (opts', Some (optionErrors msgs)) ∧
     last msgs = Some "multiple upstreams without header_name or cookie_name").
Proof.
  assert (Hp1 : Forall parses (Upstreams Example.default_first))
    by (repeat constructor; eexists; vm_compute; reflexivity).
  assert (Hp2 : Forall parses (Upstreams Example.two_defaults))
    by (repeat constructor; eexists; vm_compute; reflexivity).
  split.
  - split; [exact Hp1|]. split; [reflexivity|].
    apply (proj1 (default_placement Example.default_first []
                    (Example.upstream "http://127.0.0.1:8080/auth" "X-Signature" "")
                    Hp1 eq_refl eq_refl)
             (Example.upstream "https://foo.com/auth" "" ""));
      [reflexivity | discriminate].
  - split; [exact Hp2|].
    apply (proj2 (default_placement Example.two_defaults []
                    (Example.upstream "https://foo.com/auth" "" "")
                    Hp2 eq_refl eq_refl)).
    simpl. lia.
Defined.

(** Two defaults: the first is a default that is not last; validation
    fails, and its error does not mention the URL of that default. *)
Lemma default_not_last_url_not_named :
  Upstreams Example.two_defaults !! 0%nat
  = Some (Example.upstream "http://127.0.0.1:8080/auth" "" "") ∧
  is_default (Example.upstream "http://127.0.0.1:8080/auth" "" "") ∧
  (0 + 1 < length (Upstreams Example.two_defaults))%nat ∧
  Validate Example.two_defaults
  = Ret (Example.two_defaults_validated,
         Some (optionErrors ["multiple upstreams without header_name or cookie_name"])) ∧
  strings_Contains
    (optionErrors ["multiple upstreams without header_name or cookie_name"])
    "http://127.0.0.1:8080/auth" = false.
Proof.
  split; [reflexivity|]. split; [by split|]. split; [simpl; lia|].
  split; vm_compute; reflexivity.
Qed.

(** A default that is first and shares the URL of the last upstream goes
    through: [validateDefaultUpstreams] compares URLs, not positions. *)
Example default_first_same_url_accepted :
  ∃ opts, Validate Example.default_first_same_url = Ret (opts, None).
Proof. eexists. vm_compute. reflexivity. Qed.

(** ** C7 *)

Lemma repeated_names_reported_witness :
  Forall parses (Upstreams Example.repeated) ∧
  ∃ validated lastUpstream cookies headers,
    "_cookie" ∈ cookies ∧ "X-Signature" ∈ headers ∧
    let msgs :=
      [] ++ concat (messages_of <$> validated) ++
      report "cookie names" cookies ++ report "header names" headers ++
      default_messages (URL <$> filter is_default (Upstreams Example.repeated))
        lastUpstream in
    Validate Example.repeated
    = Ret (mkOptions 443 "" "" validated, error_of msgs) ∧
    error_of msgs = Some (optionErrors msgs).
Proof.
  assert (Hp : Forall parses (Upstreams Example.repeated))
    by (repeat constructor; eexists; vm_compute; reflexivity).
  split; [exact Hp|].
  destruct (repeated_names_reported Example.repeated [] Hp
              ltac:(discriminate) eq_refl)
    as (validated & lastUpstream & cookies & headers
        & _ & Hc & _ & Hh & _ & _ & Hv & Herr).
  exists validated, lastUpstream, cookies, headers.
  assert (Hcookie : "_cookie" ∈ cookies)
    by (apply Hc; split; [discriminate | vm_compute; lia]).
  split; [exact Hcookie|].
  split; [apply Hh; split; [discriminate | vm_compute; lia]|].
  split; [exact Hv|]. apply Herr. left. intros ->. by apply elem_of_nil in Hcookie.
Defined.

(** The test of the validator, on the runtime that visits maps in
    ascending order. *)
Example repeated_cookie_and_header :
  ∃ opts,
    Validate Example.repeated
    = Ret (opts, Some (optionErrors [ "repeated cookie names: _cookie";
                                      "repeated header names: X-Signature" ])).
Proof. eexists. vm_compute. reflexivity. Qed.

(** X-A and X-B are both repeated. On a runtime that visits the map of
    counts in descending order the report lists X-B before X-A: the list
    is not sorted, and the message with the sorted list is not emitted. *)
Lemma repeated_names_not_sorted :
  repeated_in (HeaderName <$> Upstreams Example.repeated_twice) "X-A" ∧
  repeated_in (HeaderName <$> Upstreams Example.repeated_twice) "X-B" ∧
  Validate (H:=Sample.runtime_rev) Example.repeated_twice
  = Ret (Example.repeated_twice_validated,
         Some (optionErrors ["repeated header names: X-B, X-A"])) ∧
  ascending ["X-A"; "X-B"] ∧
  ¬ ascending ["X-B"; "X-A"] ∧
  "repeated header names: " +:+ strings_Join ["X-A"; "X-B"] ", "
  ∉ ["repeated header names: X-B, X-A"].
Proof.
  split; [split; [discriminate | vm_compute; lia]|].
  split; [split; [discriminate | vm_compute; lia]|].
  split; [vm_compute; reflexivity|].
  split; [repeat constructor|]. split.
  - intros Hs. inversion Hs as [|? ? _ Hhd]. inversion Hhd as [|? ? Hle]. discriminate.
  - intros Hin. apply list_elem_of_singleton in Hin. discriminate.
Qed.

(** ** C8 *)

Lemma no_upstreams_witness :
  Upstreams (Example.options []) = [] ∧
  Validate (Example.options [])
  = Ret (Example.options [],
         Some ("Invalid options:" +:+ newline +:+ "  no upstreams defined")) ∧
  NewAuthDelegateOptionsFromJSON "{}"
  = Ret (None, Some (optionErrors [ "port must be specified and greater than zero";
                                    "no upstreams defined" ])).
Proof.
  split; [reflexivity|]. split.
  - apply (proj1 (proj2 (proj2 (proj2 (no_upstreams (Example.options []) eq_refl)))));
      [reflexivity | reflexivity | reflexivity].
  - apply (proj2 (proj1 (proj2 (proj2 (no_upstreams (mkOptions 0 "" "" []) eq_refl)))
                    ["port must be specified and greater than zero"] eq_refl)).
    reflexivity.
Defined.

(** Two configurations with no upstream on which validation does not
    fail with exactly "no upstreams defined". Without a port, the error
    lists the message of the port check before it. With a certificate
    path on which [os.Stat] fails with an error that is neither "not
    exist" nor "permission", validation panics and returns no error. *)
Lemma no_upstreams_other_outcomes :
  Upstreams (mkOptions 0 "" "" []) = [] ∧
  Validate (mkOptions 0 "" "" [])
  = Ret (mkOptions 0 "" "" [],
         Some ("Invalid options:" +:+ newline
               +:+ "  port must be specified and greater than zero" +:+ newline
               +:+ "  no upstreams defined")) ∧
  Validate (mkOptions 0 "" "" [])
  ≠ Ret (mkOptions 0 "" "" [], Some (optionErrors ["no upstreams defined"])) ∧
  Upstreams (mkOptions 443 "/etc/ssl/server.pem/cert" "" []) = [] ∧
  Validate (mkOptions 443 "/etc/ssl/server.pem/cert" "" []) = Panic nil_dereference.
Proof.
  split; [reflexivity|]. split; [vm_compute; reflexivity|].
  split; [vm_compute; discriminate|]. split; [reflexivity|].
  vm_compute; reflexivity.
Qed.

(** ** C9 *)

Lemma unparsed_upstream_panics_witness :
  url_Parse (URL Example.unparsed) = inr "parse :8080/auth: missing protocol scheme" ∧
  validateUpstream_parse Example.unparsed []
  = (Example.unparsed,
     ["upstream URL failed to parse" +:+ "parse :8080/auth: missing protocol scheme"]) ∧
  Validate (Example.options [Example.upstream "https://foo.com/auth" "" "_cookie";
                             Example.unparsed])
  = Panic nil_dereference.
Proof.
  assert (Herr : url_Parse (URL Example.unparsed)
                 = inr "parse :8080/auth: missing protocol scheme")
    by (vm_compute; reflexivity).
  split; [exact Herr|].
  destruct (unparsed_upstream_panics
              (Example.options [Example.upstream "https://foo.com/auth" "" "_cookie";
                                Example.unparsed])
              Example.unparsed _ [] Herr) as (Hparse & _ & Hall).
  split; [exact Hparse|]. apply Hall.
  apply list_elem_of_further, list_elem_of_here.
Defined.

(** ** C10 *)

Lemma validated_invariant_witness :
  Validate Example.cookie_header_default = Ret (Example.validated, None) ∧
  Forall well_formed (Upstreams Example.validated) ∧
  ∃ h, NewAuthDelegate Example.validated = Ret h.
Proof.
  assert (Hvalid : Validate Example.cookie_header_default
                   = Ret (Example.validated, None))
    by (vm_compute; reflexivity).
  split; [exact Hvalid|].
  destruct (validated_invariant _ _ Hvalid) as (Hwf & _ & h & Hh & _).
  split; [exact Hwf|]. exists h. exact Hh.
Defined.

(** * The further properties on concrete configurations and requests *)

#[local] Existing Instance SampleProcess.process.

(** ** X1 to X6 *)

Lemma default_rule_serves_witness :
  Forall (λ d, accepts d (Example.get ∅) = false) [MoreExamples.header_rule] ∧
  ServeHTTP (mkHandler ([MoreExamples.header_rule] ++ MoreExamples.default_rule
                        :: [MoreExamples.cookie_rule])) (Example.get ∅)
  = httputil.ServeHTTP (handler MoreExamples.default_rule) (Example.get ∅).
Proof.
  assert (Hbefore : Forall (λ d, accepts d (Example.get ∅) = false)
                      [MoreExamples.header_rule])
    by (repeat constructor; vm_compute; reflexivity).
  split; [exact Hbefore|].
  exact (proj2 (default_rule_serves
                  (mkHandler ([MoreExamples.header_rule]
                              ++ MoreExamples.default_rule
                              :: [MoreExamples.cookie_rule]))
                  (Example.get ∅) [MoreExamples.header_rule]
                  [MoreExamples.cookie_rule] MoreExamples.default_rule
                  eq_refl eq_refl eq_refl) Hbefore).
Defined.

Lemma rules_after_default_unused_witness :
  ServeHTTP (mkHandler ([MoreExamples.header_rule] ++ MoreExamples.default_rule
                        :: [MoreExamples.cookie_rule]))
    (Example.get Example.signed_with_cookie)
  = ServeHTTP (mkHandler ([MoreExamples.header_rule] ++ [MoreExamples.default_rule]))
      (Example.get Example.signed_with_cookie).
Proof.
  exact (rules_after_default_unused [MoreExamples.header_rule]
           [MoreExamples.cookie_rule] MoreExamples.default_rule
           (Example.get Example.signed_with_cookie) eq_refl eq_refl).
Defined.

Lemma dispatch_depends_on_headers_witness :
  http.Header_ (Example.get Example.signed) = http.Header_ MoreExamples.post_signed ∧
  ServeHTTP Example.header_cookie_handler (Example.get Example.signed)
  = httputil.ServeHTTP (handler MoreExamples.header_rule) (Example.get Example.signed) ∧
  ServeHTTP Example.header_cookie_handler MoreExamples.post_signed
  = httputil.ServeHTTP (handler MoreExamples.header_rule) MoreExamples.post_signed.
Proof.
  split; [reflexivity|].
  apply (proj2 (proj2 (dispatch_depends_on_headers Example.header_cookie_handler
                         (Example.get Example.signed) MoreExamples.post_signed
                         eq_refl))
           [] MoreExamples.header_rule [Example.rule "" "_cookie" Example.foo]);
    [reflexivity | constructor | vm_compute; reflexivity].
Defined.

Lemma NewAuthDelegate_builds_rules_witness :
  Forall (λ upstream, is_Some (parsedURL upstream)) (Upstreams Example.validated) ∧
  ∃ h, NewAuthDelegate Example.validated = Ret h ∧
       length (upstreams h) = 3%nat.
Proof.
  assert (Hall : Forall (λ upstream, is_Some (parsedURL upstream))
                   (Upstreams Example.validated))
    by (repeat constructor; eexists; reflexivity).
  split; [exact Hall|].
  destruct (NewAuthDelegate_builds_rules Example.validated Hall) as (h & Hh & Hlen & _).
  exists h. split; [exact Hh | exact Hlen].
Defined.

Lemma inbound_url_ignored_witness :
  NewAuthDelegate Example.only_default = Ret Example.only_default_handler ∧
  ServeHTTP Example.only_default_handler
    (http.set_URL (url.mkURL "" "" "/bar" "quux") (Example.get ∅))
  = ServeHTTP Example.only_default_handler
      (http.set_URL (url.mkURL "" "" "/other" "") (Example.get ∅)).
Proof.
  split; [reflexivity|].
  exact (inbound_url_ignored Example.only_default Example.only_default_handler
           _ _ (Example.get ∅) eq_refl).
Defined.

Lemma second_hop_keeps_original_uri_witness :
  ServeHTTP Example.only_default_handler (Example.get ∅)
  = http.RoundTrip MoreExamples.first_hop_out ∧
  ServeHTTP Example.only_default_handler MoreExamples.second_hop_in
  = http.RoundTrip MoreExamples.second_hop_out ∧
  header_values MoreExamples.second_hop_out "X-Original-URI" = ["/bar?quux"].
Proof.
  assert (H1 : ServeHTTP Example.only_default_handler (Example.get ∅)
               = http.RoundTrip MoreExamples.first_hop_out)
    by (vm_compute; reflexivity).
  assert (H2 : ServeHTTP Example.only_default_handler MoreExamples.second_hop_in
               = http.RoundTrip MoreExamples.second_hop_out)
    by (vm_compute; reflexivity).
  split; [exact H1|]. split; [exact H2|].
  destruct (second_hop_keeps_original_uri Example.only_default Example.only_default
              Example.only_default_handler Example.only_default_handler
              (Example.get ∅) MoreExamples.first_hop_out MoreExamples.second_hop_in
              MoreExamples.second_hop_out eq_refl eq_refl
              ltac:(discriminate) H1 eq_refl H2) as (_ & _ & Huri).
  apply Huri. vm_compute. reflexivity.
Defined.

(** ** X7 to X16 *)

Lemma Validate_stores_parsed_urls_witness :
  Validate Example.two_defaults
  = Ret (Example.two_defaults_validated,
         Some (optionErrors ["multiple upstreams without header_name or cookie_name"])) ∧
  ∃ h, NewAuthDelegate Example.two_defaults_validated = Ret h ∧
       length (upstreams h) = 2%nat.
Proof.
  assert (Hv : Validate Example.two_defaults
               = Ret (Example.two_defaults_validated,
                      Some (optionErrors
                        ["multiple upstreams without header_name or cookie_name"])))
    by (vm_compute; reflexivity).
  split; [exact Hv|].
  destruct (Validate_stores_parsed_urls _ _ _ Hv) as (_ & _ & _ & _ & h & Hh & Hlen).
  exists h. split; [exact Hh | exact Hlen].
Defined.

Lemma Validate_again_witness :
  Validate (H:=Sample.runtime) Example.repeated_twice
  = Ret (Example.repeated_twice_validated,
         Some (optionErrors ["repeated header names: X-A, X-B"])) ∧
  Validate (H:=Sample.runtime_rev) Example.repeated_twice_validated
  = Ret (Example.repeated_twice_validated,
         Some (optionErrors ["repeated header names: X-B, X-A"])) ∧
  ∃ err', Validate (H:=Sample.runtime_rev) Example.repeated_twice_validated
          = Ret (Example.repeated_twice_validated, err') ∧
          err' ≠ None.
Proof.
  assert (Hv : Validate (H:=Sample.runtime) Example.repeated_twice
               = Ret (Example.repeated_twice_validated,
                      Some (optionErrors ["repeated header names: X-A, X-B"])))
    by (vm_compute; reflexivity).
  split; [exact Hv|]. split; [vm_compute; reflexivity|].
  destruct (Validate_again Sample.runtime Sample.runtime_rev
              Example.repeated_twice Example.repeated_twice
              ltac:(split; intros; reflexivity) eq_refl eq_refl eq_refl
              ltac:(repeat constructor)) as (_ & _ & Hagain).
  destruct (Hagain _ _ Hv) as (err' & Hv' & Hnone & _).
  exists err'. split; [exact Hv'|]. intros He. by apply Hnone in He.
Defined.

Lemma Validate_accepts_iff_witness :
  valid_config Example.cookie_header_default ∧
  ¬ valid_config Example.two_defaults.
Proof.
  split.
  - apply (proj1 (Validate_accepts_iff Example.cookie_header_default)).
    vm_compute. reflexivity.
  - intros Hvalid.
    apply (proj1 (Validate_accepts_iff Example.two_defaults)) in Hvalid.
    vm_compute in Hvalid. discriminate.
Defined.

Lemma tls_stat_failure_panics_witness :
  tls_stat_fails MoreExamples.cert_below_file ∧
  Validate MoreExamples.cert_below_file = Panic nil_dereference.
Proof.
  assert (Hfails : tls_stat_fails MoreExamples.cert_below_file)
    by (left; split; [discriminate | vm_compute; reflexivity]).
  split; [exact Hfails|].
  exact (proj1 (proj2 (tls_stat_failure_panics MoreExamples.cert_below_file []))
           Hfails).
Defined.

Lemma tls_messages_witness :
  validateSsl MoreExamples.cert_only []
  = Ret ["ssl-cert and ssl-key must both be specified, or neither must be"] ∧
  ¬ tls_ok MoreExamples.cert_only.
Proof.
  assert (Hssl : validateSsl MoreExamples.cert_only []
                 = Ret ["ssl-cert and ssl-key must both be specified, or neither must be"])
    by (vm_compute; reflexivity).
  split; [exact Hssl|].
  destruct (tls_messages _ _ _ Hssl) as (added & Heq & Hiff & _).
  intros Hok. apply Hiff in Hok. subst added. discriminate.
Defined.

Lemma Validate_composes_witness :
  ∃ ssl ups,
    validateSsl Example.two_defaults [] = Ret ssl ∧
    validateUpstreams Example.two_defaults [] = Ret (Example.two_defaults_validated, ups) ∧
    Some (optionErrors ["multiple upstreams without header_name or cookie_name"])
    = error_of (validatePort Example.two_defaults [] ++ ssl ++ ups).
Proof.
  apply (proj1 (proj2 (proj2 (Validate_composes Example.two_defaults
                                Example.two_defaults_validated _)))).
  vm_compute. reflexivity.
Defined.

Lemma upstream_faults_reported_witness :
  MoreExamples.no_scheme ∈ Upstreams MoreExamples.malformed ∧
  url_Parse (URL MoreExamples.no_scheme) = inl (url.mkURL "" "" "foo.com/auth" "") ∧
  ∃ opts err msgs,
    Validate MoreExamples.malformed = Ret (opts, err) ∧ err = error_of msgs ∧
    "upstream scheme not specified: " +:+ "foo.com/auth" ∈ msgs.
Proof.
  assert (Hin : MoreExamples.no_scheme ∈ Upstreams MoreExamples.malformed)
    by apply list_elem_of_here.
  assert (Hp : url_Parse (URL MoreExamples.no_scheme)
               = inl (url.mkURL "" "" "foo.com/auth" ""))
    by (vm_compute; reflexivity).
  split; [exact Hin|]. split; [exact Hp|].
  destruct (Validate MoreExamples.malformed) as [[opts err]|] eqn:Hv;
    [|vm_compute in Hv; discriminate].
  destruct (upstream_faults_reported _ _ _ _ _ Hv Hin Hp) as (msgs & Herr & Hs & _).
  exists opts, err, msgs. split; [reflexivity|]. split; [exact Herr|].
  apply Hs. reflexivity.
Defined.

(** The test of the malformed URLs. *)
Example malformed_urls_reported :
  ∃ opts,
    Validate MoreExamples.malformed
    = Ret (opts,
           Some (optionErrors
                   [ "upstream scheme not specified: foo.com/auth";
                     "invalid upstream scheme: gopher://127.0.0.1:8080/auth" ])).
Proof. eexists. vm_compute. reflexivity. Qed.

Lemma error_text_lists_messages_witness :
  Validate Example.two_defaults
  = Ret (Example.two_defaults_validated,
         Some (optionErrors ["multiple upstreams without header_name or cookie_name"])) ∧
  ∃ msgs,
    msgs ≠ [] ∧
    optionErrors ["multiple upstreams without header_name or cookie_name"]
    = optionErrors msgs.
Proof.
  assert (Hv : Validate Example.two_defaults
               = Ret (Example.two_defaults_validated,
                      Some (optionErrors
                        ["multiple upstreams without header_name or cookie_name"])))
    by (vm_compute; reflexivity).
  split; [exact Hv|].
  destruct (proj2 (proj2 (error_text_lists_messages _ _ _)) Hv)
    as (msgs & Hne & Heq & _).
  exists msgs. split; [exact Hne | exact Heq].
Defined.

Lemma NewAuthDelegateOptionsFromJSON_result_witness :
  json_Unmarshal "{port}" = inr "invalid character" ∧
  NewAuthDelegateOptionsFromJSON "{port}"
  = Ret (None, Some ("JSON parsing failed: " +:+ "invalid character")).
Proof.
  split; [reflexivity|].
  exact (proj1 (NewAuthDelegateOptionsFromJSON_result "{port}")
           "invalid character" eq_refl).
Defined.

Lemma default_last_accepted_witness :
  ∃ opts, Validate Example.cookie_header_default = Ret (opts, None).
Proof.
  assert (Hnone : ∀ names, NoDup (filter (λ n, n ≠ "") names) →
                           ∀ name, ¬ repeated_in names name).
  { intros names Hnd name [Hne Hocc]. unfold occurrences in Hocc.
    induction names as [|n names IH]; [simpl in Hocc; lia|].
    rewrite filter_cons in Hnd, Hocc.
    destruct (decide (n = name)) as [->|Hn].
    - rewrite decide_True in Hnd by done. apply NoDup_cons in Hnd as [Hnotin _].
      destruct (filter (λ n, n = name) names) as [|x l] eqn:Hf;
        [simpl in Hocc; lia|].
      assert (Hx : x ∈ filter (λ n, n = name) names) by (rewrite Hf; left).
      apply list_elem_of_filter in Hx as [-> Hx]. destruct Hnotin.
      by apply list_elem_of_filter.
    - apply IH; [|exact Hocc]. case_decide; [by apply NoDup_cons in Hnd as [_ ?]|done]. }
  destruct (default_last_accepted Example.cookie_header_default
              [ Example.upstream "https://foo.com/auth" "" "_oauth2_proxy";
                Example.upstream "http://127.0.0.1:8080/auth" "X-Signature" "" ]
              (Example.upstream "http://127.0.0.1/auth" "" "")) as (opts & Hv & _).
  - reflexivity.
  - repeat constructor; intros [Hh Hc]; discriminate.
  - reflexivity.
  - left. split; reflexivity.
  - repeat constructor; eexists; (split; [vm_compute; reflexivity|]);
      (split; [first [by left | by right] | first [by left | by right]]).
  - apply Hnone. vm_compute. repeat constructor; set_solver.
  - apply Hnone. vm_compute. repeat constructor; set_solver.
  - exists opts. exact Hv.
Defined.

(** ** X17 and X18 *)

Lemma main_serves_valid_configurations_witness :
  ioutil_ReadFile "auth.json" = inl SampleProcess.one_upstream_text ∧
  json_Unmarshal (GoRuntime := SampleProcess.runtime) SampleProcess.one_upstream_text
  = inl SampleProcess.one_upstream ∧
  valid_config (H := SampleProcess.runtime) SampleProcess.one_upstream ∧
  ∃ printed e,
    main (H := SampleProcess.runtime) ["authdelegate"; "auth.json"]
    = Ret (printed, e) ∧
    ∀ code, e ≠ os_Exit code.
Proof.
  assert (Hvalid : valid_config (H := SampleProcess.runtime)
                     SampleProcess.one_upstream).
  { apply (Validate_None_iff (H := SampleProcess.runtime)).
    eexists. vm_compute. reflexivity. }
  split; [reflexivity|]. split; [reflexivity|]. split; [exact Hvalid|].
  exact (proj2 (main_serves_valid_configurations (H := SampleProcess.runtime)
                  ["authdelegate"; "auth.json"])
           "authdelegate" "auth.json" SampleProcess.one_upstream_text
           SampleProcess.one_upstream eq_refl eq_refl eq_refl Hvalid).
Defined.

(** The process on the second file: port 8080, no TLS. *)
Example main_listens_on_8080 :
  ∃ h,
    main (H := SampleProcess.runtime) ["authdelegate"; "auth.json"]
    = Ret (["port 8080: awaiting auth delegation requests" +:+ newline],
           ListenAndServe ":8080" h).
Proof. eexists. vm_compute. reflexivity. Qed.


(** ** X19 *)

Lemma default_placement_compares_urls_witness :
  filter is_default (Upstreams Example.default_first_same_url)
  = [Example.upstream "http://127.0.0.1/auth" "" ""] ∧
  last (Upstreams Example.default_first_same_url)
  = Some (Example.upstream "http://127.0.0.1/auth" "X-Signature" "") ∧
  ∃ opts, Validate Example.default_first_same_url = Ret (opts, None).
Proof.
  split; [reflexivity|]. split; [reflexivity|].
  apply (proj2 (default_placement_compares_urls Example.default_first_same_url
                  (Example.upstream "http://127.0.0.1/auth" "" "")
                  (Example.upstream "http://127.0.0.1/auth" "X-Signature" "")
                  ltac:(reflexivity) ltac:(left; split; reflexivity)
                  ltac:(repeat constructor; eexists;
                        (split; [vm_compute; reflexivity|]);
                        (split; [by left | first [by left | by right]]))
                  ltac:(intros name [Hne Hocc]; unfold occurrences in Hocc;
                        simpl in Hocc; rewrite !filter_cons, filter_nil in Hocc;
                        repeat case_decide; simpl in Hocc; congruence || lia)
                  ltac:(intros name [Hne Hocc]; unfold occurrences in Hocc;
                        simpl in Hocc; rewrite !filter_cons, filter_nil in Hocc;
                        repeat case_decide; simpl in Hocc; congruence || lia)
                  eq_refl eq_refl)).
  reflexivity.
Defined.
